(** * Archiving and restoring models: [allennlp/models/archival.py]

    A shallow embedding of [archive_model] and [load_archive] over an explicit
    world (a file system, a store of [Params] objects and a trace of log
    records and collaborator calls), with Python exceptions as an error
    result that keeps the world reached when the exception was raised. *)

From Stdlib Require Import ZArith String Ascii List Bool Lia.
From stdpp Require Import base option list strings gmap fin_maps.

Set Warnings "-register-all".

(** ** JSON values

    The value space of [json.loads] / [json.dumps]; a pyhocon [ConfigTree] is
    the [JObj] case (an ordered dictionary).  Dictionaries are association
    lists in insertion order, as Python iterates them. *)

Inductive json : Type :=
  | JNull
  | JBool (b : bool)
  | JNum (n : Z)
  | JStr (s : string)
  | JArr (items : list json)
  | JObj (fields : list (string * json)).

(** A text (a [str] argument or the content of a text file).  A text that
    denotes a JSON value is represented by that value, so that [json.dumps]
    is [Doc] and formatting plays no role; [Raw] is any other text: the empty
    text, or one that neither [json] nor pyhocon can read. *)
Inductive text : Type :=
  | Raw (s : string)
  | Doc (j : json).

(** ** Python dictionaries (insertion ordered) *)

Section dict.
Context {V : Type}.

Fixpoint dict_get (d : list (string * V)) (k : string) : option V :=
  match d with
  | [] => None
  | (k', v) :: d' => if decide (k' = k) then Some v else dict_get d' k
  end.

(** [d[k] = v]: replaces the value of an existing key in place, appends a
    new key at the end. *)
Fixpoint dict_set (d : list (string * V)) (k : string) (v : V) : list (string * V) :=
  match d with
  | [] => [(k, v)]
  | (k', v') :: d' =>
      if decide (k' = k) then (k', v) :: d' else (k', v') :: dict_set d' k v
  end.

End dict.

(** ** Paths: [os.path.join] (posixpath) with two arguments *)

Definition sep : string := "/".

Definition startswith (s pre : string) : bool := String.prefix pre s.

Fixpoint endswith_sep (s : string) : bool :=
  match s with
  | EmptyString => false
  | String c EmptyString => bool_decide (c = "/"%char)
  | String _ s' => endswith_sep s'
  end.

Definition path_join (a b : string) : string :=
  if startswith b sep then b
  else if bool_decide (a = "") || endswith_sep a then a +:+ b
  else a +:+ sep +:+ b.

Global Arguments path_join : simpl never.

(** What [os.path.join] puts in front of a relative second argument. *)
Definition dir_prefix (d : string) : string :=
  if bool_decide (d = "") || endswith_sep d then d else d +:+ sep.


(** [under d p]: [p] is the directory [d] itself or lies below it. *)
Definition under (d p : string) : bool :=
  bool_decide (p = d) || String.prefix (d +:+ sep) p.

Fixpoint string_drop (n : nat) (s : string) : string :=
  match n, s with
  | O, _ => s
  | S n', String _ s' => string_drop n' s'
  | S _, EmptyString => EmptyString
  end.

(** ** File system *)

(** A regular file holds a text or a gzip tar stream.  A tar stream lists its
    members in the order they were added; a member is the name it was added
    under together with the tree that was captured (the node itself with the
    empty suffix, then every node below it with its relative suffix).
    [finished] is false for a stream that was never closed properly. *)
Inductive content : Type :=
  | Text (t : text)
  | TarGz (finished : bool) (members : list (string * list (string * node)))
with node : Type :=
  | File (c : content)
  | Dir.

Abbreviation FS := (gmap string node).
Abbreviation member := (string * list (string * node))%type.

Definition subtree (fs : FS) (src : string) : list (string * node) :=
  (λ kn : string * node, (string_drop (String.length src) kn.1, kn.2))
    <$> filter (λ kn : string * node, under src kn.1 = true) (map_to_list fs).

Definition extract_member (dest : string) (fs : FS) (m : member) : FS :=
  foldl (λ (acc : FS) (sn : string * node),
           <[path_join dest (m.1 +:+ sn.1) := sn.2]> acc) fs m.2.

Definition extract_members (dest : string) (ms : list member) (fs : FS) : FS :=
  foldl (extract_member dest) fs ms.

Definition remove_tree (d : string) (fs : FS) : FS :=
  filter (λ kn : string * node, under d kn.1 = false) fs.

(** [readable finished ms]: the stream can be opened for reading, which an
    unfinished stream without members cannot. *)
Definition readable (finished : bool) (ms : list member) : bool :=
  finished || match ms with [] => false | _ :: _ => true end.

(** The members of the archive at [p]. *)
Definition members_at (f : FS) (p : string) : list member :=
  match f !! p with
  | Some (File (TarGz _ ms)) => ms
  | _ => []
  end.

(** The writes of an extraction, in order: path and node. *)
Definition writes (dest : string) (ms : list member) : list (string * node) :=
  ms ≫= (λ m : member,
    (λ sn : string * node, (path_join dest (m.1 +:+ sn.1), sn.2)) <$> m.2).

Definition apply_writes (l : list (string * node)) (f : FS) : FS :=
  foldl (λ (acc : FS) (kn : string * node), <[kn.1 := kn.2]> acc) f l.


(** [captured p f name tree]: [tree] is what [archive.add(name)] captured
    while the archive at [p] was being written over the file system [f]
    (which differs from [f] at [p] only). *)
Definition captured (p : string) (f : FS) (name : string) (tree : list (string * node))
  : Prop :=
  ∃ f' : FS, (∀ k, k ≠ p → f' !! k = f !! k) ∧ is_Some (f' !! name) ∧
             tree = subtree f' name.

(** ** Exceptions, trace and world *)

Inductive exn : Type :=
  | FileNotFoundError (path : string)
  | FileExistsError (path : string)
  | IsADirectoryError (path : string)
  | NotADirectoryError (path : string)
  | UnicodeDecodeError (path : string)
  | ReadError (path : string)
  | JSONDecodeError
  | AttributeError
  | IndexError
  | ParseError
  | TypeError
  | ValueError
  | CollaboratorError (what : string).

Inductive result (A : Type) : Type :=
  | Ok (a : A)
  | Raise (e : exn).
Arguments Ok {A} a.
Arguments Raise {A} e.

Inductive level : Type := ERROR | INFO.

(** A [Params] object is a reference into the object store. *)
Definition ref := nat.

Inductive event : Type :=
  | Log (lvl : level) (fmt : string) (args : list string)
  | CallFromFile (params_file : string) (params_overrides : text)
  | CallModelLoad (config : ref) (params : json)
                  (weights_file serialization_dir : string) (cuda_device : Z).

Record World : Type := mkWorld {
  fs : FS;
  store : list json;
  trace : list event
}.

Definition set_fs (f : FS) (w : World) : World :=
  mkWorld f (store w) (trace w).
Definition set_store (s : list json) (w : World) : World :=
  mkWorld (fs w) s (trace w).
Definition emit (e : event) (w : World) : World :=
  mkWorld (fs w) (store w) (trace w ++ [e]).

(** ** The monad of effectful Python code *)

Definition M (A : Type) : Type := World → result A * World.

Definition ret {A} (a : A) : M A := λ w, (Ok a, w).
Definition bind {A B} (m : M A) (k : A → M B) : M B :=
  λ w, match m w with
       | (Ok a, w') => k a w'
       | (Raise e, w') => (Raise e, w')
       end.

Declare Scope py_scope.
Delimit Scope py_scope with py.
Notation "x <- m ;; k" := (bind m (λ x, k))
  (at level 100, m at next level, right associativity) : py_scope.
Notation "m ;;; k" := (bind m (λ _, k))
  (at level 100, right associativity) : py_scope.
Local Open Scope py_scope.

Definition tell (e : event) : M unit := λ w, (Ok tt, emit e w).

Fixpoint for_each {A} (body : A → M unit) (l : list A) : M unit :=
  match l with
  | [] => ret tt
  | x :: l' => body x ;;; for_each body l'
  end.

(** ** pyhocon: the part of [ConfigTree] and [ConfigFactory] that
    [load_archive] calls

    pyhocon is an external library; these definitions follow its
    [ConfigTree.parse_key], [ConfigTree._put], [ConfigTree.merge_configs],
    [ConfigTree.with_fallback] and [ConfigFactory.from_dict].  The quoted
    segments of [parse_key] are not modelled: a key is split at its dots. *)
Module pyhocon.

Abbreviation ConfigTree := (list (string * json)).

(** Split at ["."], dropping empty segments (the regular expression of
    [parse_key] matches non-empty runs only). *)
Fixpoint split_dots (cur : string) (s : string) : list string :=
  match s with
  | EmptyString => if decide (cur = "") then [] else [cur]
  | String c s' =>
      if decide (c = "."%char)
      then (if decide (cur = "") then [] else [cur]) ++ split_dots "" s'
      else split_dots (cur +:+ String c EmptyString) s'
  end.

Definition parse_key (key : string) : list string := split_dots "" key.

(** [merge_into b a] is the value stored under a key of the target after
    merging: the trees are merged when both sides are trees, otherwise the
    source value [b] overrides whatever the target had ([a]). *)
Fixpoint merge_into (b : json) (a : option json) {struct b} : json :=
  match b with
  | JObj bt =>
      match a with
      | Some (JObj at_) =>
          JObj ((fix go (bt : ConfigTree) (acc : ConfigTree) {struct bt} : ConfigTree :=
                   match bt with
                   | [] => acc
                   | kv :: bt' =>
                       go bt' (dict_set acc kv.1 (merge_into kv.2 (dict_get acc kv.1)))
                   end) bt at_)
      | _ => b
      end
  | _ => b
  end.

(** [merge_configs a b]: merge config [b] into [a]; returns the merged [a]. *)
Fixpoint merge_configs (a b : ConfigTree) {struct b} : ConfigTree :=
  match b with
  | [] => a
  | kv :: b' => merge_configs (dict_set a kv.1 (merge_into kv.2 (dict_get a kv.1))) b'
  end.

(** [self._put(key_path, value)]: at the last element the value is merged
    into a tree that is already there or else assigned; on the way a value
    that is not a tree is replaced by a new tree.  [None] is the [IndexError]
    of [key_path[0]] on an empty path. *)
Fixpoint put_path (self : ConfigTree) (key_path : list string) (value : json)
  : option ConfigTree :=
  match key_path with
  | [] => None
  | [key_elt] =>
      Some (dict_set self key_elt (merge_into value (dict_get self key_elt)))
  | key_elt :: rest =>
      let next_config_tree :=
        match dict_get self key_elt with
        | Some (JObj t) => t
        | _ => []
        end in
      match put_path next_config_tree rest value with
      | Some t' => Some (dict_set self key_elt (JObj t'))
      | None => None
      end
  end.

Definition put (self : ConfigTree) (key : string) (value : json) : option ConfigTree :=
  put_path self (parse_key key) value.

(** [ConfigFactory.from_dict] on a dictionary of strings: every key is
    [put], so a dotted key becomes a path of nested trees. *)
Fixpoint from_dict_loop (res : ConfigTree) (items : list (string * string))
  : option ConfigTree :=
  match items with
  | [] => Some res
  | (key, child_value) :: items' =>
      match put res key (JStr child_value) with
      | Some res' => from_dict_loop res' items'
      | None => None
      end
  end.

Definition from_dict (dictionary : list (string * string)) : result json :=
  match from_dict_loop [] dictionary with
  | Some t => Ok (JObj t)
  | None => Raise IndexError
  end.

(** [ConfigFactory.parse_string]: the empty text is the empty tree. *)
Definition parse_string (content : text) : result json :=
  match content with
  | Raw s => if decide (s = "") then Ok (JObj []) else Raise ParseError
  | Doc (JObj t) => Ok (JObj t)
  | Doc (JArr l) => Ok (JArr l)
  | Doc _ => Raise ParseError
  end.

(** [self.with_fallback(config)]: a new config, [self] with fallback on
    [config], computed as [merge_configs(copy(config), copy(self))]. *)
Definition with_fallback (self config : json) : result json :=
  match self, config with
  | JObj s, JObj c => Ok (JObj (merge_configs c s))
  | _, _ => Raise TypeError
  end.

(** [config.get(path)] along a parsed key path. *)
Fixpoint get_path (t : ConfigTree) (key_path : list string) : option json :=
  match key_path with
  | [] => None
  | [key_elt] => dict_get t key_elt
  | key_elt :: rest =>
      match dict_get t key_elt with
      | Some (JObj t') => get_path t' rest
      | _ => None
      end
  end.

Definition get (t : ConfigTree) (key : string) : option json :=
  get_path t (parse_key key).

End pyhocon.

(** ** Configuration trees: well-formedness and paths *)

(** Trees whose dictionaries have no repeated key, at every level. *)
Inductive wf_tree : pyhocon.ConfigTree → Prop :=
  | wf_tree_intro t :
      NoDup t.*1 →
      (∀ k t', dict_get t k = Some (JObj t') → wf_tree t') →
      wf_tree t.

(** [untouched b p]: the layer [b] has nothing at [p], above [p] or below
    [p]. *)
Fixpoint untouched (b : pyhocon.ConfigTree) (p : list string) : Prop :=
  match p with
  | [] => True
  | k :: rest =>
      match dict_get b k with
      | None => True
      | Some (JObj bt) => rest ≠ [] ∧ wf_tree bt ∧ untouched bt rest
      | Some _ => False
      end
  end.

(** Two key paths neither of which leads through the other. *)
Definition incomparable (p q : list string) : Prop :=
  ¬ p `prefix_of` q ∧ ¬ q `prefix_of` p.

(** ** json *)

Definition json_dumps (j : json) : text := Doc j.

Definition json_loads (t : text) : result json :=
  match t with
  | Doc j => Ok j
  | Raw _ => Raise JSONDecodeError
  end.

Definition dict_items (j : json) : result (list (string * json)) :=
  match j with
  | JObj d => Ok d
  | _ => Raise AttributeError
  end.

Definition lift {A} (r : result A) : M A := λ w, (r, w).

(** ** Operating-system and library primitives *)

(** [os.path.exists] *)
Definition os_path_exists (p : string) : M bool :=
  λ w, (Ok (match fs w !! p with Some _ => true | None => false end), w).

(** [with open(p, 'w') as f: f.write(t)]: creates or truncates the file. *)
Definition write_text (p : string) (t : text) : M unit :=
  λ w, match fs w !! p with
       | Some Dir => (Raise (IsADirectoryError p), w)
       | _ => (Ok tt, set_fs (<[p := File (Text t)]> (fs w)) w)
       end.

(** [with open(p, 'r') as f: f.read()] *)
Definition read_text (p : string) : M text :=
  λ w, match fs w !! p with
       | None => (Raise (FileNotFoundError p), w)
       | Some Dir => (Raise (IsADirectoryError p), w)
       | Some (File (TarGz _ _)) => (Raise (UnicodeDecodeError p), w)
       | Some (File (Text t)) => (Ok t, w)
       end.

(** [tarfile.open(p, 'w:gz')]: the file is created or truncated at once. *)
Definition tarfile_open_w (p : string) : M unit :=
  λ w, match fs w !! p with
       | Some Dir => (Raise (IsADirectoryError p), w)
       | _ => (Ok tt, set_fs (<[p := File (TarGz false [])]> (fs w)) w)
       end.

(** [archive.add(name, arcname=arcname)] on the archive open at [p].
    [TarFile.add] first checks that the archive is open for writing, then
    skips, without adding anything, a [name] that is the archive being
    written; otherwise the tree at [name] is captured as it is now (the
    recursion over a directory skips the archive in the same way) and
    appended to the stream. *)
Definition tarfile_add (p name arcname : string) : M unit :=
  λ w, match fs w !! p with
       | Some (File (TarGz false ms)) =>
           if decide (name = p) then (Ok tt, w)
           else match fs w !! name with
                | None => (Raise (FileNotFoundError name), w)
                | Some _ =>
                    (Ok tt,
                     set_fs (<[p := File (TarGz false
                                 (ms ++ [(arcname, subtree (delete p (fs w)) name)]))]>
                               (fs w)) w)
                end
       | _ => (Raise ValueError, w)
       end.

(** Closing the archive writes the end of the stream. *)
Definition tarfile_close (p : string) : M unit :=
  λ w, match fs w !! p with
       | Some (File (TarGz _ ms)) =>
           (Ok tt, set_fs (<[p := File (TarGz true ms)]> (fs w)) w)
       | _ => (Raise ValueError, w)
       end.

(** [with tarfile.open(p, 'w:gz') as archive: body].  When the body raises,
    the file is closed as it is, without the end of the stream, and the
    exception propagates. *)
Definition with_tarfile_w (p : string) (body : M unit) : M unit :=
  tarfile_open_w p ;;; body ;;; tarfile_close p.

(** [with tarfile.open(p, 'r:gz') as archive: archive.extractall(dest)].
    A stream that was not closed properly still holds every member written
    to it and is read to its end like a finished one; only when it holds no
    member at all is there nothing to read, and opening it fails. *)
Definition tarfile_extractall (p dest : string) : M unit :=
  λ w, match fs w !! p with
       | None => (Raise (FileNotFoundError p), w)
       | Some Dir => (Raise (IsADirectoryError p), w)
       | Some (File (Text _)) => (Raise (ReadError p), w)
       | Some (File (TarGz finished ms)) =>
           if readable finished ms
           then (Ok tt, set_fs (extract_members dest ms (fs w)) w)
           else (Raise (ReadError p), w)
       end.

(** [shutil.rmtree] *)
Definition shutil_rmtree (d : string) : M unit :=
  λ w, match fs w !! d with
       | None => (Raise (FileNotFoundError d), w)
       | Some (File _) => (Raise (NotADirectoryError d), w)
       | Some Dir => (Ok tt, set_fs (remove_tree d (fs w)) w)
       end.

Definition logger_error (fmt : string) (args : list string) : M unit :=
  tell (Log ERROR fmt args).
Definition logger_info (fmt : string) (args : list string) : M unit :=
  tell (Log INFO fmt args).

(** ** Collaborators

    What [archival.py] imports and treats as opaque: the resolver
    [cached_path], the model loader [Model.load] (which also says what it
    leaves of the [Params] object it consumes) and the name [tempfile.mkdtemp]
    picks. *)
Class Collaborators : Type := {
  Model : Type;
  cached_path : string → FS → result string * FS;
  mkdtemp_name : FS → string;
  Model_load : json → string → string → Z → FS → result Model * json
}.

Section archival.
Context `{Collaborators}.

(** [Archive = NamedTuple("Archive", [("model", Model), ("config", Params)])] *)
Record Archive : Type := mkArchive { model : Model; config : ref }.

Definition _CONFIG_NAME : string := "config.json".
Definition _WEIGHTS_NAME : string := "weights.th".
Definition _FTA_NAME : string := "files_to_archive.json".

Definition cached_path_call (url_or_filename : string) : M string :=
  λ w, let '(r, f) := cached_path url_or_filename (fs w) in (r, set_fs f w).

(** [tempfile.mkdtemp()] *)
Definition tempfile_mkdtemp : M string :=
  λ w, let d := mkdtemp_name (fs w) in
       match fs w !! d with
       | Some _ => (Raise (FileExistsError d), w)
       | None => (Ok d, set_fs (<[d := Dir]> (fs w)) w)
       end.

Definition alloc (j : json) : M ref :=
  λ w, (Ok (length (store w)), set_store (store w ++ [j]) w).

(** Modelled from the spec: [Params.from_file], of [allennlp.common], is not
    among the sources.  It parses the file together with the overrides text
    into the merged, override-applied configuration, an override winning over
    the value of the file. *)
Definition Params_from_file (params_file : string) (params_overrides : text) : M ref :=
  tell (CallFromFile params_file params_overrides) ;;;
  file_text <- read_text params_file ;;
  file_dict <- lift (pyhocon.parse_string file_text) ;;
  overrides_dict <- lift (pyhocon.parse_string params_overrides) ;;
  param_dict <- lift (pyhocon.with_fallback overrides_dict file_dict) ;;
  alloc param_dict.

(** Modelled from the spec: [Params.duplicate], a new object with a copy of
    the configuration. *)
Definition Params_duplicate (self : ref) : M ref :=
  λ w, match store w !! self with
       | Some j => alloc j w
       | None => (Raise ValueError, w)
       end.

(** [Model.load(config, weights_file=..., serialization_dir=..., cuda_device=...)]:
    the collaborator reads the file system and consumes the object it is
    given. *)
Definition Model_load_call (config : ref) (weights_file serialization_dir : string)
    (cuda_device : Z) : M Model :=
  λ w, match store w !! config with
       | None => (Raise ValueError, w)
       | Some params =>
           let w1 := emit (CallModelLoad config params weights_file
                                         serialization_dir cuda_device) w in
           let '(r, left_over) :=
             Model_load params weights_file serialization_dir cuda_device (fs w) in
           (r, set_store (<[config := left_over]> (store w1)) w1)
       end.

(** Python truthiness of [files_to_archive: Dict[str, str] = None]. *)
Definition truthy (files_to_archive : option (list (string * string))) : bool :=
  match files_to_archive with
  | Some (_ :: _) => true
  | _ => false
  end.

Definition items_of (files_to_archive : option (list (string * string)))
  : list (string * string) := default [] files_to_archive.

Definition manifest_json (files_to_archive : list (string * string)) : json :=
  JObj ((λ kp : string * string, (kp.1, JStr kp.2)) <$> files_to_archive).

(** ** [archive_model] *)
Definition archive_model (serialization_dir weights : string)
    (files_to_archive : option (list (string * string))) : M unit :=
  let weights_file := path_join serialization_dir weights in
  weights_exist <- os_path_exists weights_file ;;
  if negb weights_exist then
    logger_error "weights file %s does not exist, unable to archive model" [weights_file]
  else
    let config_file := path_join serialization_dir "model_params.json" in
    config_exists <- os_path_exists config_file ;;
    (if negb config_exists then
       logger_error "config file %s does not exist, unable to archive model" [config_file]
     else ret tt) ;;;
    let fta_file := path_join serialization_dir _FTA_NAME in
    (if truthy files_to_archive then
       write_text fta_file (json_dumps (manifest_json (items_of files_to_archive)))
     else ret tt) ;;;
    let archive_file := path_join serialization_dir "model.tar.gz" in
    logger_info "archiving weights and vocabulary to %s" [archive_file] ;;;
    with_tarfile_w archive_file
      (tarfile_add archive_file config_file _CONFIG_NAME ;;;
       tarfile_add archive_file weights_file _WEIGHTS_NAME ;;;
       tarfile_add archive_file (path_join serialization_dir "vocabulary") "vocabulary" ;;;
       if truthy files_to_archive then
         tarfile_add archive_file fta_file _FTA_NAME ;;;
         for_each (λ kf : string * string,
                     tarfile_add archive_file kf.2 ("fta/" +:+ kf.1))
                  (items_of files_to_archive)
       else ret tt).

(** The dictionary [replacements] built by the loop over the manifest. *)
Definition replacements_of (tempdir : string) (files_to_archive : list (string * json))
  : list (string * string) :=
  foldl (λ (replacements : list (string * string)) (kv : string * json),
           let replacement_filename := path_join tempdir ("fta/" +:+ kv.1) in
           dict_set replacements kv.1 replacement_filename)
        [] files_to_archive.

(** The block of [load_archive] that reconciles the auxiliary files (from
    [fta_file = os.path.join(tempdir, _FTA_NAME)] to the reassignment of
    [overrides]); its result is the overrides text handed to
    [Params.from_file]. *)
Definition add_replacements (tempdir : string) (overrides : text) : M text :=
  let fta_file := path_join tempdir _FTA_NAME in
  fta_exists <- os_path_exists fta_file ;;
  if fta_exists then
    fta_text <- read_text fta_file ;;
    loaded <- lift (json_loads fta_text) ;;
    files_to_archive <- lift (dict_items loaded) ;;
    let replacements := replacements_of tempdir files_to_archive in
    base <- lift (pyhocon.from_dict replacements) ;;
    parsed <- lift (pyhocon.parse_string overrides) ;;
    combined <- lift (pyhocon.with_fallback base parsed) ;;
    ret (json_dumps combined)
  else ret overrides.

(** The pure computation of the block on a manifest that is a JSON object. *)
Definition combine_overrides (tempdir : string) (items : list (string * json))
    (overrides : text) : result text :=
  match pyhocon.from_dict (replacements_of tempdir items) with
  | Raise e => Raise e
  | Ok base =>
      match pyhocon.parse_string overrides with
      | Raise e => Raise e
      | Ok parsed =>
          match pyhocon.with_fallback base parsed with
          | Raise e => Raise e
          | Ok combined => Ok (json_dumps combined)
          end
      end
  end.


(** ** [load_archive] *)
Definition load_archive (archive_file : string) (cuda_device : Z) (overrides : text)
  : M Archive :=
  archive_file <- cached_path_call archive_file ;;
  tempdir <- tempfile_mkdtemp ;;
  logger_info "extracting archive file %s to temp dir %s" [archive_file; tempdir] ;;;
  tarfile_extractall archive_file tempdir ;;;
  overrides <- add_replacements tempdir overrides ;;
  config <- Params_from_file (path_join tempdir _CONFIG_NAME) overrides ;;
  duplicate <- Params_duplicate config ;;
  model <- Model_load_call duplicate (path_join tempdir _WEIGHTS_NAME) tempdir cuda_device ;;
  shutil_rmtree tempdir ;;;
  ret (mkArchive model config).

(** What [load_archive] does once the overrides text is settled. *)
Definition restore_tail (tempdir : string) (cuda_device : Z) (overrides : text)
  : M Archive :=
  config <- Params_from_file (path_join tempdir _CONFIG_NAME) overrides ;;
  duplicate <- Params_duplicate config ;;
  model <- Model_load_call duplicate (path_join tempdir _WEIGHTS_NAME) tempdir cuda_device ;;
  shutil_rmtree tempdir ;;;
  ret (mkArchive model config).

(** The world in which the auxiliary-file block and the tail run: the
    archive resolved to [archive_file'] in the file system [f1] has been
    extracted into the fresh [tempdir]. *)
Definition extracted_world (archive_file' tempdir : string) (ms : list member)
    (f1 : FS) (w : World) : World :=
  mkWorld (extract_members tempdir ms (<[tempdir := Dir]> f1)) (store w)
          (trace w ++ [Log INFO "extracting archive file %s to temp dir %s"
                           [archive_file'; tempdir]]).

End archival.

(** * Example worlds *)

(** Collaborators for the examples: local paths resolve to themselves, the
    temporary directory is [/tmp/t], and the model loader accepts everything
    and leaves the configuration it was given empty. *)
Definition plain : Collaborators := {|
  Model := string;
  cached_path := λ p f, (Ok p, f);
  mkdtemp_name := λ _, "/tmp/t";
  Model_load := λ _ _ _ _ _, (Ok "model", JObj [])
|}.

(** The serialization directory of the scenario of the specification. *)
Definition ser_fs : FS :=
  list_to_map
    [("/ser", Dir);
     ("/ser/best.th", File (Text (Raw "weights")));
     ("/ser/model_params.json", File (Text (Doc (JObj [("a", JNum 1)]))));
     ("/ser/vocabulary", Dir);
     ("/ser/vocabulary/tokens.txt", File (Text (Raw "tokens")));
     ("/tmp/foo.txt", File (Text (Raw "foo")))].

Definition ser_world : World := mkWorld ser_fs [] [].

(** The same directory without its config file. *)
Definition no_config_world : World :=
  mkWorld (delete "/ser/model_params.json" ser_fs) [] [].

(** The directory archived with one auxiliary file. *)
Definition archived_world : World :=
  (archive_model "/ser" "best.th" (Some [("extra", "/tmp/foo.txt")])
     ser_world).2.

(** A world whose [model.tar.gz] is not an archive. *)
Definition corrupt_world : World :=
  mkWorld (<["/ser/model.tar.gz" := File (Text (Raw "not a tar stream"))]> ser_fs) [] [].

Definition plain_model : string := "model".


(** Two extracted trees whose manifests differ in the original paths only. *)
Definition manifest_world (original : string) : World :=
  mkWorld {[ path_join "/tmp/t" _FTA_NAME :=
               File (Text (Doc (JObj [("extra", JStr original)]))) ]} [] [].

(** An extracted tree that holds the manifest [manifest] and nothing else. *)
Definition listed_manifest_world (manifest : list (string * json)) : World :=
  mkWorld {[ path_join "/tmp/t" _FTA_NAME := File (Text (Doc (JObj manifest))) ]} [] [].


(** [caller_wins keys caller combined]: on every key set by both the manifest
    and the caller's overrides, the combined overrides carry the caller's
    value. *)
Definition caller_wins (manifest_keys : list string)
    (caller combined : pyhocon.ConfigTree) : Prop :=
  ∀ key v, key ∈ manifest_keys → pyhocon.get caller key = Some v →
           pyhocon.get combined key = Some v.

(** * Definitions for further properties *)


(** [only_at P m]: whatever its outcome, [m] leaves the object store alone
    and changes the file system at paths satisfying [P] only. *)
Definition only_at {A} (P : string → Prop) (m : M A) : Prop :=
  ∀ w r w', m w = (r, w') →
    store w' = store w ∧ ∀ p, ¬ P p → fs w' !! p = fs w !! p.

(** [keeps_open p f m]: run while the archive at [p] is being written over
    the file system [f], [m] leaves it being written, whatever its outcome. *)
Definition keeps_open {A} (p : string) (f : FS) (m : M A) : Prop :=
  ∀ w r w', (∃ ms, fs w = <[p := File (TarGz false ms)]> f) → m w = (r, w') →
    ∃ ms', fs w' = <[p := File (TarGz false ms')]> f.

(** [keeps_fs m]: whatever its outcome, [m] leaves the file system alone. *)
Definition keeps_fs {A} (m : M A) : Prop :=
  ∀ w r w', m w = (r, w') → fs w' = fs w.

(** The segments of a path, split at the separator. *)
Fixpoint segments (cur : string) (s : string) : list string :=
  match s with
  | EmptyString => [cur]
  | String c s' =>
      if bool_decide (c = "/"%char) then cur :: segments "" s'
      else segments (cur +:+ String c EmptyString) s'
  end.

(** [climbs s]: some segment of [s] is [..].  Paths are taken literally
    here, so a name that climbs is outside what the file system models. *)
Definition climbs (s : string) : bool :=
  existsb (String.eqb "..") (segments "" s).

(** Every node of every member is extracted to a relative name that stays
    below the directory it is extracted to. *)
Definition relative_members (ms : list member) : Prop :=
  Forall (λ m : member,
            Forall (λ sn : string * node,
                      startswith (m.1 +:+ sn.1) sep = false ∧
                      climbs (m.1 +:+ sn.1) = false) m.2)
         ms.


(** The directory of the scenario without its vocabulary. *)
Definition no_vocabulary_world : World :=
  mkWorld (delete "/ser/vocabulary/tokens.txt" (delete "/ser/vocabulary" ser_fs)) [] [].

(** * Properties *)

(** ** Strings and paths *)

Lemma append_cons (x : ascii) (a b : string) :
  String x a +:+ b = String x (a +:+ b).
Proof. reflexivity. Qed.

Lemma append_nil_l (b : string) : "" +:+ b = b.
Proof. reflexivity. Qed.

Lemma append_assoc' (a b c : string) : (a +:+ b) +:+ c = a +:+ b +:+ c.
Proof.
  induction a as [|x a IH]; [done|]. by rewrite !append_cons, IH.
Qed.

Lemma append_cancel_l (s a b : string) : s +:+ a = s +:+ b → a = b.
Proof.
  induction s as [|x s IH]; [done|]. rewrite !append_cons. intros [=]; auto.
Qed.

Lemma append_nil_r (s : string) : s +:+ "" = s.
Proof.
  induction s as [|x s IH]; [done|]. by rewrite append_cons, IH.
Qed.

Lemma path_join_relative (d b : string) :
  startswith b sep = false → path_join d b = dir_prefix d +:+ b.
Proof.
  intros Hb. unfold path_join, dir_prefix. rewrite Hb.
  destruct (bool_decide (d = "") || endswith_sep d); [done|].
  symmetry. apply append_assoc'.
Qed.

Lemma path_join_inj (d a b : string) :
  startswith a sep = false → startswith b sep = false →
  path_join d a = path_join d b → a = b.
Proof.
  intros Ha Hb. rewrite !path_join_relative by done. apply append_cancel_l.
Qed.

Lemma prefix_append (s t : string) : String.prefix s (s +:+ t) = true.
Proof.
  induction s as [|x s IH]; [by destruct t|].
  rewrite append_cons. simpl. destruct (ascii_dec x x); [done | congruence].
Qed.




Lemma prefix_append_cancel (s a b : string) :
  String.prefix (s +:+ a) (s +:+ b) = String.prefix a b.
Proof.
  induction s as [|x s IH]; [done|].
  rewrite !append_cons. simpl. destruct (ascii_dec x x); [done | congruence].
Qed.

Lemma string_drop_append (s t : string) : string_drop (String.length s) (s +:+ t) = t.
Proof. induction s as [|x s IH]; [done | by rewrite append_cons]. Qed.

Lemma string_drop_all (s : string) : string_drop (String.length s) s = "".
Proof. by rewrite <- (append_nil_r s) at 2; rewrite string_drop_append. Qed.

Lemma under_refl (d : string) : under d d = true.
Proof. unfold under. by rewrite bool_decide_eq_true_2. Qed.

(** Two relative names below the same directory: [under] compares the
    names. *)
Lemma under_path_join (d a b : string) :
  startswith a sep = false → startswith b sep = false →
  under (path_join d a) (path_join d b) = under a b.
Proof.
  intros Ha Hb. unfold under. rewrite !path_join_relative by done.
  rewrite append_assoc', prefix_append_cancel. f_equal.
  apply bool_decide_ext. split; [apply append_cancel_l | by intros ->].
Qed.

(** ** Dictionaries *)

Section dict_facts.
Context {V : Type}.
Implicit Types (d : list (string * V)) (k : string) (v : V).

Lemma dict_get_set d k v k' :
  dict_get (dict_set d k v) k' = if decide (k = k') then Some v else dict_get d k'.
Proof.
  induction d as [|[k0 v0] d IH]; cbn.
  - by destruct (decide (k = k')).
  - destruct (decide (k0 = k)) as [->|Hne]; cbn.
    + by destruct (decide (k = k')).
    + rewrite IH. destruct (decide (k0 = k')) as [->|]; [|done].
      by destruct (decide (k = k')).
Qed.

Lemma dict_get_set_eq d k v : dict_get (dict_set d k v) k = Some v.
Proof. rewrite dict_get_set. by destruct (decide (k = k)). Qed.

Lemma dict_get_set_ne d k v k' : k ≠ k' → dict_get (dict_set d k v) k' = dict_get d k'.
Proof. intros. rewrite dict_get_set. by destruct (decide (k = k')). Qed.

Lemma dict_get_None d k : dict_get d k = None ↔ k ∉ d.*1.
Proof.
  induction d as [|[k0 v0] d IH]; cbn.
  - split; [intros _; apply not_elem_of_nil | done].
  - rewrite not_elem_of_cons. destruct (decide (k0 = k)) as [->|]; [|intuition congruence].
    split; [done | by intros [? _]].
Qed.

Lemma dict_set_keys d k v :
  (dict_set d k v).*1 = if decide (k ∈ d.*1) then d.*1 else d.*1 ++ [k].
Proof.
  induction d as [|[k0 v0] d IH]; cbn.
  - destruct (decide (k ∈ [])) as [Hin|]; [by apply elem_of_nil in Hin | done].
  - destruct (decide (k0 = k)) as [->|Hne]; cbn.
    + rewrite decide_True; [done | by left].
    + rewrite IH. destruct (decide (k ∈ d.*1)).
      * rewrite decide_True; [done | by right].
      * rewrite decide_False; [done|]. rewrite elem_of_cons. intuition congruence.
Qed.

Lemma dict_set_NoDup d k v : NoDup d.*1 → NoDup (dict_set d k v).*1.
Proof.
  intros Hnd. rewrite dict_set_keys. destruct (decide (k ∈ d.*1)); [done|].
  apply NoDup_app. split_and!; [done| |apply NoDup_singleton].
  intros x Hx ->%list_elem_of_singleton. done.
Qed.

End dict_facts.

(** ** Configuration trees *)

Section config_trees.
Import pyhocon.
Implicit Types (a b t : ConfigTree) (p q : list string).

Lemma merge_into_trees b a :
  merge_into (JObj b) (Some (JObj a)) = JObj (merge_configs a b).
Proof.
  cbn. f_equal. revert a.
  induction b as [|kv b IH]; intros a; [done|]. cbn. apply IH.
Qed.

Lemma merge_into_leaf (s : string) (a : option json) : merge_into (JStr s) a = JStr s.
Proof. done. Qed.

Lemma merge_configs_nil_r a : merge_configs a [] = a.
Proof. done. Qed.

(** Reading one key of a merge, for a source without repeated keys. *)
Lemma dict_get_merge a b k :
  NoDup b.*1 →
  dict_get (merge_configs a b) k =
    match dict_get b k with
    | Some bv => Some (merge_into bv (dict_get a k))
    | None => dict_get a k
    end.
Proof.
  revert a. induction b as [|[k' v] b IH]; intros a Hnd; [done|].
  apply NoDup_cons in Hnd as [Hk' Hnd]. cbn [fst] in Hk'.
  cbn [merge_configs fst snd]. rewrite IH by done. cbn [dict_get].
  destruct (decide (k' = k)) as [->|Hne].
  - apply dict_get_None in Hk'. rewrite Hk'. apply dict_get_set_eq.
  - by rewrite dict_get_set_ne.
Qed.

Lemma wf_tree_nil : wf_tree [].
Proof. by constructor; [constructor|]. Qed.

Lemma wf_tree_set t k v :
  wf_tree t → (∀ t', v = JObj t' → wf_tree t') → wf_tree (dict_set t k v).
Proof.
  intros [t0 Hnd Hsub] Hv. constructor; [by apply dict_set_NoDup|].
  intros k0 t'. rewrite dict_get_set. destruct (decide (k = k0)); [|by eauto].
  intros [= ->]. by apply Hv.
Qed.

(** A value of the preferred layer that is a string survives the merge. *)
Lemma get_path_merge_leaf p : ∀ a b (s : string),
  wf_tree b → get_path b p = Some (JStr s) →
  get_path (merge_configs a b) p = Some (JStr s).
Proof.
  induction p as [|k [|k2 rest] IH]; intros a b s Hwf Hget; [done| |].
  - cbn in *. destruct Hwf as [b Hnd _]. rewrite dict_get_merge by done.
    by rewrite Hget.
  - cbn [get_path] in *. destruct Hwf as [b Hnd Hsub].
    rewrite dict_get_merge by done.
    destruct (dict_get b k) as [[| | | |?|bt]|] eqn:Hb; try done.
    destruct (dict_get a k) as [[| | | |?|at_]|] eqn:Ha; try done.
    rewrite merge_into_trees. apply IH; eauto.
Qed.

Lemma untouched_cons b k rest :
  untouched b (k :: rest) =
    match dict_get b k with
    | None => True
    | Some (JObj bt) => rest ≠ [] ∧ wf_tree bt ∧ untouched bt rest
    | Some _ => False
    end.
Proof. reflexivity. Qed.

Lemma untouched_nil p : untouched [] p.
Proof. by destruct p. Qed.

Lemma untouched_get_path p : ∀ b, untouched b p → get_path b p = None.
Proof.
  induction p as [|k [|k2 rest] IH]; intros b Hu; [done| |].
  - cbn in *. destruct (dict_get b k) as [[| | | |?|bt]|]; intuition congruence.
  - cbn [get_path untouched] in *.
    destruct (dict_get b k) as [[| | | |?|bt]|]; try done.
    apply IH. intuition.
Qed.

(** Where the preferred layer has nothing, the merge reads the fallback. *)
Lemma get_path_merge_untouched p : ∀ a b,
  NoDup b.*1 → untouched b p →
  get_path (merge_configs a b) p = get_path a p.
Proof.
  induction p as [|k [|k2 rest] IH]; intros a b Hnd Hu; [done| |].
  - cbn in *. rewrite dict_get_merge by done.
    destruct (dict_get b k) as [[| | | |?|bt]|]; intuition congruence.
  - cbn [get_path untouched] in *. rewrite dict_get_merge by done.
    destruct (dict_get b k) as [[| | | |?|bt]|] eqn:Hb; try done.
    destruct Hu as (_ & [bt' Hnd' _] & Hu).
    destruct (dict_get a k) as [[| | | |?|at_]|] eqn:Ha;
      rewrite ?merge_into_trees; cbn [merge_into];
      try (by apply (untouched_get_path (k2 :: rest))).
    by apply IH.
Qed.





Lemma incomparable_cons k p q :
  incomparable (k :: p) (k :: q) → incomparable p q.
Proof.
  intros [H1 H2]. split; intros [r ->]; [apply H1 | apply H2]; by exists r.
Qed.

Lemma get_path_nil p : get_path [] p = None.
Proof. by destruct p as [|k [|k2 rest]]. Qed.

Lemma get_path_cons t k k2 rest :
  get_path t (k :: k2 :: rest) =
    match dict_get t k with
    | Some (JObj t') => get_path t' (k2 :: rest)
    | _ => None
    end.
Proof. reflexivity. Qed.

Lemma put_path_cons t k k2 rest v :
  put_path t (k :: k2 :: rest) v =
    match put_path (match dict_get t k with Some (JObj t0) => t0 | _ => [] end)
                   (k2 :: rest) v with
    | Some t' => Some (dict_set t k (JObj t'))
    | None => None
    end.
Proof. reflexivity. Qed.

Lemma put_path_is_Some q : ∀ t v, q ≠ [] → is_Some (put_path t q v).
Proof.
  induction q as [|k [|k2 rest] IH]; intros t v Hq; [done|by eexists|].
  rewrite put_path_cons.
  destruct (IH (match dict_get t k with Some (JObj t0) => t0 | _ => [] end) v)
    as [t' ->]; [done | by eexists].
Qed.

Lemma put_path_wf q : ∀ t (s : string) t',
  wf_tree t → put_path t q (JStr s) = Some t' → wf_tree t'.
Proof.
  induction q as [|k [|k2 rest] IH]; intros t s t' Hwf Hput; [done| |].
  - injection Hput as <-. by apply wf_tree_set.
  - rewrite put_path_cons in Hput.
    destruct (put_path _ (k2 :: rest) _) as [n'|] eqn:Hn; [|done].
    injection Hput as <-. apply wf_tree_set; [done|]. intros ? [= <-].
    eapply IH; [|done]. destruct Hwf as [t Hnd Hsub].
    destruct (dict_get t k) as [[| | | |?|t0]|] eqn:Hk; eauto using wf_tree_nil.
Qed.

Lemma put_path_get_same q : ∀ t (s : string) t',
  put_path t q (JStr s) = Some t' → get_path t' q = Some (JStr s).
Proof.
  induction q as [|k [|k2 rest] IH]; intros t s t' Hput; [done| |].
  - injection Hput as <-. cbn. apply dict_get_set_eq.
  - rewrite put_path_cons in Hput.
    destruct (put_path _ (k2 :: rest) _) as [n'|] eqn:Hn; [|done].
    injection Hput as <-. rewrite get_path_cons, dict_get_set_eq. eauto.
Qed.

Lemma put_path_get_other q : ∀ p t (s : string) t',
  incomparable p q → put_path t q (JStr s) = Some t' →
  get_path t' p = get_path t p.
Proof.
  induction q as [|k [|k2 rest] IH]; intros p t s t' Hinc Hput; [done| |].
  - injection Hput as <-. destruct p as [|k' prest]; [done|].
    destruct (decide (k = k')) as [->|Hne].
    + destruct Hinc as [_ Hinc]. destruct Hinc. by exists prest.
    + destruct prest; cbn [get_path]; by rewrite dict_get_set_ne.
  - rewrite put_path_cons in Hput.
    destruct (put_path _ (k2 :: rest) _) as [n'|] eqn:Hn; [|done].
    injection Hput as <-. destruct p as [|k' prest]; [done|].
    destruct (decide (k = k')) as [->|Hne].
    + destruct prest as [|k3 prest].
      { destruct Hinc as [Hinc _]. destruct Hinc. by exists (k2 :: rest). }
      rewrite !get_path_cons, dict_get_set_eq.
      erewrite IH; [|by eapply incomparable_cons|done].
      destruct (dict_get t k') as [[| | | |?|t0]|]; try done;
        apply (get_path_nil (k3 :: prest)).
    + destruct prest; cbn [get_path]; by rewrite dict_get_set_ne.
Qed.

(** Putting a string elsewhere keeps a path untouched. *)
Lemma put_path_untouched q : ∀ p t (s : string) t',
  wf_tree t → incomparable p q → untouched t p →
  put_path t q (JStr s) = Some t' → untouched t' p.
Proof.
  induction q as [|k [|k2 rest] IH]; intros p t s t' Hwf Hinc Hu Hput; [done| |].
  - injection Hput as <-. destruct p as [|k' prest]; [done|].
    destruct (decide (k = k')) as [->|Hne].
    + destruct Hinc as [_ Hinc]. destruct Hinc. by exists prest.
    + rewrite untouched_cons in *. by rewrite dict_get_set_ne.
  - rewrite put_path_cons in Hput.
    destruct (put_path _ (k2 :: rest) _) as [n'|] eqn:Hn; [|done].
    injection Hput as <-. destruct p as [|k' prest]; [done|].
    destruct (decide (k = k')) as [->|Hne].
    + destruct prest as [|k3 prest].
      { destruct Hinc as [Hinc _]. destruct Hinc. by exists (k2 :: rest). }
      rewrite untouched_cons in Hu. rewrite untouched_cons, dict_get_set_eq.
      assert (Hnext : wf_tree (match dict_get t k' with
                               | Some (JObj t0) => t0 | _ => [] end)).
      { destruct Hwf as [t Hnd Hsub].
        destruct (dict_get t k') as [[| | | |?|t0]|] eqn:Hk; eauto using wf_tree_nil. }
      split_and!; [done|by eapply put_path_wf|].
      eapply IH; [exact Hnext|by eapply incomparable_cons| |exact Hn].
      destruct (dict_get t k') as [[| | | |?|t0]|]; try done.
      by destruct Hu as (_ & _ & Hu).
    + rewrite untouched_cons in *. by rewrite dict_get_set_ne.
Qed.

(** [from_dict] over a dictionary of strings. *)
Lemma from_dict_loop_wf items : ∀ res t,
  wf_tree res → from_dict_loop res items = Some t → wf_tree t.
Proof.
  induction items as [|[key v] items IH]; intros res t Hwf Hloop.
  - by injection Hloop as <-.
  - cbn [from_dict_loop] in Hloop. destruct (put res key (JStr v)) as [res'|] eqn:Hp; [|done].
    eapply IH; [|done]. by eapply put_path_wf.
Qed.

Lemma from_dict_loop_is_Some items : ∀ res,
  Forall (λ kv : string * string, parse_key kv.1 ≠ []) items →
  is_Some (from_dict_loop res items).
Proof.
  induction items as [|[key v] items IH]; intros res Hall; [by eexists|].
  apply Forall_cons in Hall as [Hkey Hall]. cbn [from_dict_loop].
  destruct (put_path_is_Some (parse_key key) res (JStr v)) as [res' Hres']; [done|].
  unfold put. rewrite Hres'. by apply IH.
Qed.

Lemma from_dict_loop_get_other items : ∀ res t p,
  Forall (λ kv : string * string, incomparable p (parse_key kv.1)) items →
  from_dict_loop res items = Some t → get_path t p = get_path res p.
Proof.
  induction items as [|[key v] items IH]; intros res t p Hall Hloop.
  - by injection Hloop as <-.
  - apply Forall_cons in Hall as [Hkey Hall]. cbn [from_dict_loop] in Hloop.
    destruct (put res key (JStr v)) as [res'|] eqn:Hp; [|done].
    rewrite (IH _ _ _ Hall Hloop). by eapply put_path_get_other.
Qed.

Lemma from_dict_loop_untouched items : ∀ res t p,
  wf_tree res → untouched res p →
  Forall (λ kv : string * string, incomparable p (parse_key kv.1)) items →
  from_dict_loop res items = Some t → untouched t p.
Proof.
  induction items as [|[key v] items IH]; intros res t p Hwf Hu Hall Hloop.
  - by injection Hloop as <-.
  - apply Forall_cons in Hall as [Hkey Hall]. cbn [from_dict_loop] in Hloop.
    destruct (put res key (JStr v)) as [res'|] eqn:Hp; [|done].
    eapply IH; [| |exact Hall|exact Hloop].
    + by eapply put_path_wf.
    + by eapply put_path_untouched.
Qed.

(** The entry of a key whose path clashes with no other key of the
    dictionary. *)
Lemma from_dict_loop_get items : ∀ res t key v,
  NoDup items.*1 → (key, v) ∈ items →
  (∀ key', key' ∈ items.*1 → key' ≠ key →
           incomparable (parse_key key) (parse_key key')) →
  from_dict_loop res items = Some t → get t key = Some (JStr v).
Proof.
  induction items as [|[key0 v0] items IH]; intros res t key v Hnd Hin Hinc Hloop.
  - by apply elem_of_nil in Hin.
  - rewrite fmap_cons in Hnd. apply NoDup_cons in Hnd as [Hk0 Hnd].
    cbn [fst] in Hk0. cbn [from_dict_loop] in Hloop.
    destruct (put res key0 (JStr v0)) as [res'|] eqn:Hp; [|done].
    apply elem_of_cons in Hin as [[= -> ->]|Hin].
    + unfold get. erewrite from_dict_loop_get_other; [by eapply put_path_get_same| |done].
      apply Forall_forall. intros [key' v'] Hin'. cbn [fst]. apply Hinc.
      * rewrite fmap_cons. right. apply list_elem_of_fmap. by exists (key', v').
      * intros ->. apply Hk0. apply list_elem_of_fmap. by exists (key0, v').
    + eapply IH; [done|done| |done].
      intros key' Hin' Hne. apply Hinc; [rewrite fmap_cons; by right | done].
Qed.

End config_trees.

(** ** Captured trees *)

Lemma subtree_elem (f : FS) (src sfx : string) (nd : node) :
  (sfx, nd) ∈ subtree f src ↔
  ∃ k, f !! k = Some nd ∧ under src k = true ∧ sfx = string_drop (String.length src) k.
Proof.
  unfold subtree. rewrite list_elem_of_fmap. split.
  - intros [[k n] [[= -> ->] Hin]]. apply list_elem_of_filter in Hin as [Hu Hin].
    apply elem_of_map_to_list in Hin. eauto.
  - intros (k & Hk & Hu & ->). exists (k, nd). split; [done|].
    apply list_elem_of_filter. split; [done|]. by apply elem_of_map_to_list.
Qed.


(** ** Extraction *)

Lemma extract_members_writes (dest : string) (ms : list member) :
  ∀ f, extract_members dest ms f = apply_writes (writes dest ms) f.
Proof.
  unfold extract_members, apply_writes, writes.
  induction ms as [|m ms IH]; intros f; [done|].
  cbn [foldl mbind list_bind]. rewrite foldl_app, IH. f_equal.
  unfold extract_member. by rewrite foldl_fmap.
Qed.

Lemma writes_elem (dest : string) (ms : list member) (K : string) (v : node) :
  (K, v) ∈ writes dest ms ↔
  ∃ (m : member) (sn : string * node),
    m ∈ ms ∧ sn ∈ m.2 ∧ K = path_join dest (m.1 +:+ sn.1) ∧ v = sn.2.
Proof.
  unfold writes. rewrite list_elem_of_bind. split.
  - intros (m & Hin & Hm). apply list_elem_of_fmap in Hin as (sn & [= -> ->] & Hsn).
    by exists m, sn.
  - intros (m & sn & Hm & Hsn & -> & ->). exists m. split; [|done].
    apply list_elem_of_fmap. by exists sn.
Qed.

Lemma apply_writes_lookup (l : list (string * node)) : ∀ (f : FS) (K : string),
((K ∉ l.*1) ∧ apply_writes l f !! K = f !! K) ∨
  (∃ v, (K, v) ∈ l ∧ apply_writes l f !! K = Some v).
Proof.
  induction l as [|[k n] l IH]; intros f K.
  - left. split; [apply not_elem_of_nil | done].
  - cbn [apply_writes foldl fst snd].
    destruct (IH (<[k := n]> f) K) as [[Hnin Hlook]|(v & Hin & Hlook)].
    + destruct (decide (k = K)) as [->|Hne].
      * right. exists n. split; [by left|].
        unfold apply_writes in Hlook. by rewrite Hlook, lookup_insert_eq.
      * left. split.
        -- rewrite fmap_cons, not_elem_of_cons. by split.
        -- unfold apply_writes in Hlook. by rewrite Hlook, lookup_insert_ne.
    + right. exists v. split; [by right | done].
Qed.

(** A path to which every write brings the same node holds that node. *)
Lemma extract_members_written (dest : string) (ms : list member) (f : FS)
    (K : string) (v : node) :
  (K, v) ∈ writes dest ms →
  (∀ v', (K, v') ∈ writes dest ms → v' = v) →
  extract_members dest ms f !! K = Some v.
Proof.
  intros Hin Hall. rewrite extract_members_writes.
  destruct (apply_writes_lookup (writes dest ms) f K)
    as [[Hnin _]|(v' & Hin' & ->)].
  - destruct Hnin. apply list_elem_of_fmap. by exists (K, v).
  - by rewrite (Hall v' Hin').
Qed.

(** A path that no write reaches is as before. *)
Lemma extract_members_untouched (dest : string) (ms : list member) (f : FS)
    (K : string) :
  (∀ v', (K, v') ∉ writes dest ms) →
  extract_members dest ms f !! K = f !! K.
Proof.
  intros Hall. rewrite extract_members_writes.
  destruct (apply_writes_lookup (writes dest ms) f K)
    as [[_ ->]|(v' & Hin' & _)]; [done|]. by destruct (Hall v').
Qed.

Lemma prefix_inv (a b : string) :
  String.prefix a b = true → ∃ r, b = a +:+ r.
Proof.
  revert b. induction a as [|x a IH]; intros b Hp; [by exists b|].
  destruct b as [|y b]; [done|]. cbn in Hp.
  destruct (ascii_dec x y) as [->|]; [|done].
  destruct (IH b Hp) as [r ->]. by exists r.
Qed.

Lemma startswith_append (t sfx : string) :
  t ≠ "" → startswith t sep = false → startswith (t +:+ sfx) sep = false.
Proof.
  destruct t as [|c t]; [done|]. intros _. rewrite append_cons.
  unfold startswith, sep. cbn -[ascii_dec].
  destruct (ascii_dec _ c); [|done]. by destruct t.
Qed.








(** ** Running the monad *)

Lemma bind_ok {A B} (m : M A) (k : A → M B) w a w1 :
  m w = (Ok a, w1) → bind m k w = k a w1.
Proof. unfold bind. by intros ->. Qed.


Lemma bind_ok_inv {A B} (m : M A) (k : A → M B) w b w2 :
  bind m k w = (Ok b, w2) → ∃ a w1, m w = (Ok a, w1) ∧ k a w1 = (Ok b, w2).
Proof.
  unfold bind. destruct (m w) as [[a|e] w1]; [eauto | done].
Qed.

Section archival_facts.
Context `{Collaborators}.

(** ** [archive_model] *)

(** C4. When the chosen weights file does not exist, [archive_model] logs an
    error and returns at once: the file system is left exactly as it was (no
    [model.tar.gz], no manifest even when a files-to-archive map is supplied,
    no file touched), and the only effect is the error record. *)
Theorem archive_model_missing_weights
    (serialization_dir weights : string)
    (files_to_archive : option (list (string * string))) (w : World) :
  fs w !! path_join serialization_dir weights = None →
  ∃ w',
    archive_model serialization_dir weights files_to_archive w = (Ok tt, w') ∧
    fs w' = fs w ∧
    store w' = store w ∧
    trace w' = trace w ++
      [Log ERROR "weights file %s does not exist, unable to archive model"
           [path_join serialization_dir weights]].
Proof.
  intros Hw. eexists. split.
  - unfold archive_model. erewrite bind_ok; last first.
    { unfold os_path_exists. rewrite Hw. reflexivity. }
    simpl. reflexivity.
  - done.
Qed.

(** The paths [archive_model] works with are pairwise different. *)
Lemma path_join_ne (d a b : string) :
  startswith a sep = false → startswith b sep = false → a ≠ b →
  path_join d a ≠ path_join d b.
Proof. intros Ha Hb Hne Heq. apply Hne. by eapply path_join_inj. Qed.


(** Adding the archive to itself adds nothing. *)
Lemma tarfile_add_skip (p : string) (f : FS) (ms : list member)
    (arcname : string) (w : World) :
  fs w = <[p := File (TarGz false ms)]> f →
  tarfile_add p p arcname w = (Ok tt, w).
Proof.
  intros Hfs. unfold tarfile_add. by rewrite Hfs, lookup_insert_eq, decide_True.
Qed.

Lemma tarfile_add_step (p : string) (f : FS) (ms : list member)
    (name arcname : string) (w w' : World) :
  fs w = <[p := File (TarGz false ms)]> f →
  name ≠ p →
  tarfile_add p name arcname w = (Ok tt, w') →
  ∃ tree, fs w' = <[p := File (TarGz false (ms ++ [(arcname, tree)]))]> f ∧
          captured p f name tree.
Proof.
  intros Hfs Hne. unfold tarfile_add.
  rewrite Hfs at 1. rewrite lookup_insert_eq, decide_False by done.
  destruct (fs w !! name) as [nd|] eqn:Hn; [|done]. intros [= <-].
  exists (subtree (delete p (fs w)) name). split.
  - cbn. by rewrite Hfs, insert_insert_eq.
  - exists (delete p (fs w)). split_and!; [| |done].
    + intros k Hk. by rewrite lookup_delete_ne, Hfs, lookup_insert_ne.
    + by rewrite lookup_delete_ne, Hn.
Qed.

(** One [add], whether it skips or appends. *)
Lemma tarfile_add_entry (p : string) (f : FS) (ms : list member)
    (name arcname : string) (w w' : World) :
  fs w = <[p := File (TarGz false ms)]> f →
  tarfile_add p name arcname w = (Ok tt, w') →
  ∃ entry : list member,
    fs w' = <[p := File (TarGz false (ms ++ entry))]> f ∧
    if decide (name = p) then entry = []
    else ∃ tree, entry = [(arcname, tree)] ∧ captured p f name tree.
Proof.
  intros Hfs Hrun. destruct (decide (name = p)) as [->|Hne].
  - rewrite (tarfile_add_skip _ _ _ _ _ Hfs) in Hrun. injection Hrun as <-.
    exists []. by rewrite app_nil_r.
  - destruct (tarfile_add_step _ _ _ _ _ _ _ Hfs Hne Hrun) as (tree & Hfs' & Hcap).
    exists [(arcname, tree)]. split; [done|]. by exists tree.
Qed.

Lemma for_each_add_steps (p : string) (f : FS) (items : list (string * string)) :
  ∀ (ms : list member) (w w' : World),
    fs w = <[p := File (TarGz false ms)]> f →
    for_each (λ kf : string * string, tarfile_add p kf.2 ("fta/" +:+ kf.1)) items w
      = (Ok tt, w') →
    ∃ ms', fs w' = <[p := File (TarGz false (ms ++ ms'))]> f ∧
           Forall2 (λ (kf : string * string) (m : member),
                      m.1 = "fta/" +:+ kf.1 ∧ captured p f kf.2 m.2)
                   (filter (λ kf : string * string, kf.2 ≠ p) items) ms'.
Proof.
  induction items as [|kf items IH]; intros ms w w' Hfs Hrun.
  - injection Hrun as <-. exists []. by rewrite app_nil_r.
  - cbn [for_each] in Hrun. apply bind_ok_inv in Hrun as ([] & w1 & Hadd & Hrun).
    destruct (tarfile_add_entry _ _ _ _ _ _ _ Hfs Hadd) as (entry & Hfs1 & Hentry).
    destruct (IH _ _ _ Hfs1 Hrun) as (ms' & Hfs' & Hall).
    exists (entry ++ ms'). split; [by rewrite Hfs', <- app_assoc|].
    destruct (decide (kf.2 = p)) as [Heq|Hne].
    + subst entry. rewrite filter_cons_False by (by intros ?). exact Hall.
    + destruct Hentry as (tree & -> & Hcap). rewrite filter_cons_True by done.
      by constructor.
Qed.

(** What a successful [archive_model] that found the weights file leaves
    behind.  The weights file and the auxiliary files give an entry each
    unless they are the archive itself. *)
Lemma archive_model_ok_inv
    (serialization_dir weights : string)
    (files_to_archive : option (list (string * string))) (w w' : World) :
  let weights_file := path_join serialization_dir weights in
  let config_file := path_join serialization_dir "model_params.json" in
  let fta_file := path_join serialization_dir _FTA_NAME in
  let archive_file := path_join serialization_dir "model.tar.gz" in
  let f := if truthy files_to_archive
           then <[fta_file := File (Text (json_dumps
                    (manifest_json (items_of files_to_archive))))]> (fs w)
           else fs w in
  is_Some (fs w !! weights_file) →
  archive_model serialization_dir weights files_to_archive w = (Ok tt, w') →
  ∃ (t_config : list (string * node)) (e_weights : list member)
    (t_vocabulary : list (string * node)) (extra : list member),
    fs w' = <[archive_file :=
               File (TarGz true ((_CONFIG_NAME, t_config) :: e_weights
                                   ++ ("vocabulary", t_vocabulary) :: extra))]> f ∧
    captured archive_file f config_file t_config ∧
    (if decide (weights_file = archive_file) then e_weights = []
     else ∃ t_weights, e_weights = [(_WEIGHTS_NAME, t_weights)] ∧
                       captured archive_file f weights_file t_weights) ∧
    captured archive_file f (path_join serialization_dir "vocabulary") t_vocabulary ∧
    if truthy files_to_archive then
      ∃ t_manifest fta, extra = (_FTA_NAME, t_manifest) :: fta ∧
        captured archive_file f fta_file t_manifest ∧
        Forall2 (λ (kf : string * string) (m : member),
                   m.1 = "fta/" +:+ kf.1 ∧ captured archive_file f kf.2 m.2)
                (filter (λ kf : string * string, kf.2 ≠ archive_file)
                        (items_of files_to_archive)) fta
    else extra = [].
Proof.
  intros weights_file config_file fta_file archive_file f [nd Hw].
  assert (Hca : config_file ≠ archive_file) by (by apply path_join_ne).
  assert (Hva : path_join serialization_dir "vocabulary" ≠ archive_file)
    by (by apply path_join_ne).
  assert (Hfa : fta_file ≠ archive_file) by (by apply path_join_ne).
  unfold archive_model.
  fold weights_file config_file fta_file archive_file.
  clearbody weights_file config_file fta_file archive_file.
  intros Hrun.
  apply bind_ok_inv in Hrun as (b & w0 & Hex & Hrun).
  unfold os_path_exists in Hex. rewrite Hw in Hex. injection Hex as <- <-.
  cbn [negb] in Hrun.
  apply bind_ok_inv in Hrun as (b & w0 & Hex & Hrun).
  injection Hex as <- <-.
  apply bind_ok_inv in Hrun as ([] & w1 & Hlog & Hrun).
  assert (Hw1 : fs w1 = fs w).
  { destruct (negb _); injection Hlog as <-; done. }
  apply bind_ok_inv in Hrun as ([] & w2 & Hman & Hrun).
  assert (Hw2 : fs w2 = f).
  { subst f. destruct (truthy files_to_archive).
    - unfold write_text in Hman. rewrite Hw1 in Hman.
      destruct (fs w !! fta_file) as [[?|]|]; try done; injection Hman as <-; done.
    - injection Hman as <-; done. }
  clearbody f.
  apply bind_ok_inv in Hrun as ([] & w3 & Hinfo & Hrun).
  injection Hinfo as <-.
  unfold with_tarfile_w in Hrun.
  apply bind_ok_inv in Hrun as ([] & w4 & Hopen & Hrun).
  assert (Hw4 : fs w4 = <[archive_file := File (TarGz false [])]> f).
  { unfold tarfile_open_w in Hopen. cbn in Hopen. rewrite Hw2 in Hopen.
    destruct (f !! archive_file) as [[?|]|]; try done; injection Hopen as <-; done. }
  apply bind_ok_inv in Hrun as ([] & w5 & Hbody & Hclose).
  apply bind_ok_inv in Hbody as ([] & w6 & Hadd1 & Hbody).
  destruct (tarfile_add_step _ _ _ _ _ _ _ Hw4 Hca Hadd1) as (t1 & Hw6 & Hc1).
  apply bind_ok_inv in Hbody as ([] & w7 & Hadd2 & Hbody).
  destruct (tarfile_add_entry _ _ _ _ _ _ _ Hw6 Hadd2) as (e2 & Hw7 & Hc2).
  apply bind_ok_inv in Hbody as ([] & w8 & Hadd3 & Hbody).
  destruct (tarfile_add_step _ _ _ _ _ _ _ Hw7 Hva Hadd3) as (t3 & Hw8 & Hc3).
  cbn [app] in Hw8.
  destruct (truthy files_to_archive).
  - apply bind_ok_inv in Hbody as ([] & w9 & Hadd4 & Hloop).
    destruct (tarfile_add_step _ _ _ _ _ _ _ Hw8 Hfa Hadd4) as (t4 & Hw9 & Hc4).
    destruct (for_each_add_steps _ _ _ _ _ _ Hw9 Hloop) as (fta & Hw5 & Hall).
    exists t1, e2, t3, ((_FTA_NAME, t4) :: fta). split_and!; [|done..|by eauto].
    unfold tarfile_close in Hclose. rewrite Hw5, lookup_insert_eq in Hclose.
    injection Hclose as <-. cbn [fs set_fs]. rewrite insert_insert_eq.
    do 3 f_equal. cbn [app]. f_equal. by rewrite <- !app_assoc.
  - injection Hbody as <-.
    exists t1, e2, t3, []. split_and!; [|done..].
    unfold tarfile_close in Hclose. rewrite Hw8, lookup_insert_eq in Hclose.
    injection Hclose as <-. cbn [fs set_fs]. by rewrite insert_insert_eq.
Qed.

(** ** The auxiliary-file block of [load_archive] *)

Lemma dict_get_elem {V} (d : list (string * V)) k v :
  dict_get d k = Some v → (k, v) ∈ d.
Proof.
  induction d as [|[k0 v0] d IH]; cbn; [done|].
  destruct (decide (k0 = k)) as [->|]; [intros [= ->]; by left | right; auto].
Qed.

Lemma replacements_from (tempdir : string) (items : list (string * json)) :
  ∀ (acc : list (string * string)) key,
    dict_get (foldl (λ (replacements : list (string * string)) (kv : string * json),
                       dict_set replacements kv.1 (path_join tempdir ("fta/" +:+ kv.1)))
                    acc items) key
    = if decide (key ∈ items.*1) then Some (path_join tempdir ("fta/" +:+ key))
      else dict_get acc key.
Proof.
  induction items as [|[k j] items IH]; intros acc key.
  - cbn. rewrite decide_False; [done | apply not_elem_of_nil].
  - cbn [foldl fst]. rewrite IH, fmap_cons. cbn [fst].
    destruct (decide (key ∈ items.*1)) as [Hin|Hnin].
    + rewrite decide_True; [done | by right].
    + rewrite dict_get_set. destruct (decide (k = key)) as [->|Hne].
      * rewrite decide_True; [done | by left].
      * rewrite decide_False; [done|]. rewrite elem_of_cons. intuition congruence.
Qed.

Lemma replacements_of_get (tempdir : string) (items : list (string * json)) key :
  dict_get (replacements_of tempdir items) key
  = if decide (key ∈ items.*1) then Some (path_join tempdir ("fta/" +:+ key)) else None.
Proof. apply replacements_from. Qed.

Lemma replacements_of_NoDup (tempdir : string) (items : list (string * json)) :
  NoDup (replacements_of tempdir items).*1.
Proof.
  unfold replacements_of. generalize (NoDup_nil_2 (A := string)).
  change (@nil string) with ((@nil (string * string)).*1).
  generalize (@nil (string * string)).
  induction items as [|kv items IH]; intros acc Hacc; [done|].
  cbn [foldl]. apply IH. by apply dict_set_NoDup.
Qed.

Lemma replacements_of_keys (tempdir : string) (items : list (string * json)) key :
  key ∈ (replacements_of tempdir items).*1 → key ∈ items.*1.
Proof.
  intros Hin. destruct (decide (key ∈ items.*1)) as [|Hnin]; [done|].
  exfalso. revert Hin. apply dict_get_None.
  by rewrite replacements_of_get, decide_False.
Qed.

(** The dictionary depends on the keys of the manifest only. *)
Lemma replacements_of_keys_only (tempdir : string) (m1 m2 : list (string * json)) :
  m1.*1 = m2.*1 → replacements_of tempdir m1 = replacements_of tempdir m2.
Proof.
  unfold replacements_of. generalize (@nil (string * string)).
  revert m2. induction m1 as [|[k1 j1] m1 IH]; intros [|[k2 j2] m2] acc Heq; try done.
  injection Heq as -> Heq. cbn [foldl fst]. by apply IH.
Qed.


Lemma add_replacements_manifest (tempdir : string) (overrides : text) (w : World)
    (items : list (string * json)) :
  fs w !! path_join tempdir _FTA_NAME = Some (File (Text (Doc (JObj items)))) →
  add_replacements tempdir overrides w = (combine_overrides tempdir items overrides, w).
Proof.
  intros Hf. unfold add_replacements, combine_overrides, bind, os_path_exists,
    read_text, lift, ret. rewrite Hf. cbn. rewrite Hf. cbn.
  destruct (pyhocon.from_dict _); [|done].
  destruct (pyhocon.parse_string _); [|done].
  by destruct (pyhocon.with_fallback _ _).
Qed.

Lemma add_replacements_world (tempdir : string) (overrides : text) (w : World) :
  (add_replacements tempdir overrides w).2 = w.
Proof.
  unfold add_replacements, bind, os_path_exists, read_text, lift, ret.
  destruct (fs w !! _) as [[[t|? ?]|]|] eqn:Hf; cbn; rewrite ?Hf; cbn; try done.
  destruct (json_loads t); cbn; [|done].
  destruct (dict_items _); cbn; [|done].
  destruct (pyhocon.from_dict _); cbn; [|done].
  destruct (pyhocon.parse_string _); cbn; [|done].
  by destruct (pyhocon.with_fallback _ _).
Qed.

(** ** [load_archive], stage by stage *)

Lemma load_archive_run (archive_file : string) (cuda_device : Z) (overrides : text)
    (w : World) :
  load_archive archive_file cuda_device overrides w =
    match cached_path archive_file (fs w) with
    | (Raise e, f1) => (Raise e, set_fs f1 w)
    | (Ok archive_file', f1) =>
        let tempdir := mkdtemp_name f1 in
        match f1 !! tempdir with
        | Some _ => (Raise (FileExistsError tempdir), set_fs f1 w)
        | None =>
            let w2 := emit (Log INFO "extracting archive file %s to temp dir %s"
                                [archive_file'; tempdir])
                           (set_fs (<[tempdir := Dir]> f1) w) in
            match tarfile_extractall archive_file' tempdir w2 with
            | (Raise e, w3) => (Raise e, w3)
            | (Ok _, w3) =>
                match (add_replacements tempdir overrides w3).1 with
                | Raise e => (Raise e, w3)
                | Ok overrides' => restore_tail tempdir cuda_device overrides' w3
                end
            end
        end
    end.
Proof.
  unfold load_archive, bind at 1. unfold cached_path_call.
  destruct (cached_path archive_file (fs w)) as [[a'|e] f1]; [|done].
  unfold bind at 1. unfold tempfile_mkdtemp. cbn [fs set_fs].
  destruct (f1 !! mkdtemp_name f1); [done|].
  unfold bind at 1. cbn [logger_info tell].
  unfold bind at 1.
  destruct (tarfile_extractall _ _ _) as [[[]|e] w3]; [|done].
  unfold bind at 1.
  pose proof (add_replacements_world (mkdtemp_name f1) overrides w3) as Hw.
  destruct (add_replacements _ _ w3) as [[ov'|e] w4]; cbn in Hw; by subst w4.
Qed.

(** The tail first records the call of [Params.from_file] with the overrides
    text it was given; everything after only adds to the trace. *)
Lemma restore_tail_trace (tempdir : string) (cuda_device : Z) (overrides : text)
    (w : World) :
  ∃ rest, trace (restore_tail tempdir cuda_device overrides w).2
          = trace w ++ CallFromFile (path_join tempdir _CONFIG_NAME) overrides :: rest.
Proof.
  unfold restore_tail, Params_from_file, Params_duplicate, Model_load_call,
    shutil_rmtree, alloc, read_text, lift, tell, ret, bind.
  cbn. repeat case_match; simplify_eq; cbn;
    try (by eexists []); try (by eexists [_]; rewrite <- app_assoc).
Qed.

Lemma store_lookup_new (st : list json) (x : json) (more : list json) :
  (st ++ x :: more) !! length st = Some x.
Proof. by rewrite lookup_app_r, Nat.sub_diag by lia. Qed.

Lemma store_insert_second (st : list json) (x y z : json) :
  <[S (length st) := z]> (st ++ [x; y]) = st ++ [x; z].
Proof.
  rewrite insert_app_r_alt by lia.
  by replace (S (length st) - length st) with 1 by lia.
Qed.

Lemma Params_from_file_ok (params_file : string) (overrides : text)
    (w : World) (c : ref) (w1 : World) :
  Params_from_file params_file overrides w = (Ok c, w1) ↔
  ∃ (config_text : text) (file_dict overrides_dict merged : json),
    fs w !! params_file = Some (File (Text config_text)) ∧
    pyhocon.parse_string config_text = Ok file_dict ∧
    pyhocon.parse_string overrides = Ok overrides_dict ∧
    pyhocon.with_fallback overrides_dict file_dict = Ok merged ∧
    c = length (store w) ∧
    w1 = mkWorld (fs w) (store w ++ [merged])
                 (trace w ++ [CallFromFile params_file overrides]).
Proof.
  unfold Params_from_file, alloc, read_text, lift, tell, ret, bind. cbn. split.
  - destruct (fs w !! params_file) as [[[ct|? ?]|]|] eqn:Hc; try done.
    destruct (pyhocon.parse_string ct) as [fd|] eqn:Hfd; [|done].
    destruct (pyhocon.parse_string overrides) as [od|] eqn:Hod; [|done].
    destruct (pyhocon.with_fallback od fd) as [merged|] eqn:Hm; [|done].
    intros [= <- <-]. by exists ct, fd, od, merged.
  - intros (ct & fd & od & merged & Hc & Hfd & Hod & Hm & -> & ->).
    by rewrite Hc, Hfd, Hod, Hm.
Qed.

Lemma Params_duplicate_ok (self : ref) (w : World) (d : ref) (w1 : World) :
  Params_duplicate self w = (Ok d, w1) ↔
  ∃ j, store w !! self = Some j ∧ d = length (store w) ∧
       w1 = set_store (store w ++ [j]) w.
Proof.
  unfold Params_duplicate, alloc. split.
  - destruct (store w !! self) as [j|]; [|done]. intros [= <- <-]. by exists j.
  - intros (j & -> & -> & ->). done.
Qed.

Lemma Model_load_call_ok (r : ref) (weights_file serialization_dir : string)
    (cuda_device : Z) (w : World) (m : Model) (w1 : World) :
  Model_load_call r weights_file serialization_dir cuda_device w = (Ok m, w1) ↔
  ∃ params left_over,
    store w !! r = Some params ∧
    Model_load params weights_file serialization_dir cuda_device (fs w)
      = (Ok m, left_over) ∧
    w1 = mkWorld (fs w) (<[r := left_over]> (store w))
           (trace w ++ [CallModelLoad r params weights_file serialization_dir
                                      cuda_device]).
Proof.
  unfold Model_load_call. split.
  - destruct (store w !! r) as [params|]; [|done].
    destruct (Model_load _ _ _ _ _) as [res left_over] eqn:Hl.
    intros [= -> <-]. by exists params, left_over.
  - intros (params & left_over & -> & Hl & ->). by rewrite Hl.
Qed.

Lemma shutil_rmtree_ok (d : string) (w w1 : World) :
  shutil_rmtree d w = (Ok tt, w1) ↔
  fs w !! d = Some Dir ∧ w1 = set_fs (remove_tree d (fs w)) w.
Proof.
  unfold shutil_rmtree. split.
  - destruct (fs w !! d) as [[?|]|]; try done. by intros [= <-].
  - by intros [-> ->].
Qed.

(** When, and into which world, the tail returns an [Archive]. *)
Lemma restore_tail_ok (tempdir : string) (cuda_device : Z) (overrides : text)
    (w : World) (ar : Archive) (w' : World) :
  restore_tail tempdir cuda_device overrides w = (Ok ar, w') ↔
  ∃ (config_text : text) (file_dict overrides_dict merged left_over : json),
    fs w !! path_join tempdir _CONFIG_NAME = Some (File (Text config_text)) ∧
    pyhocon.parse_string config_text = Ok file_dict ∧
    pyhocon.parse_string overrides = Ok overrides_dict ∧
    pyhocon.with_fallback overrides_dict file_dict = Ok merged ∧
    Model_load merged (path_join tempdir _WEIGHTS_NAME) tempdir cuda_device (fs w)
      = (Ok (model ar), left_over) ∧
    fs w !! tempdir = Some Dir ∧
    config ar = length (store w) ∧
    w' = mkWorld (remove_tree tempdir (fs w))
                 (store w ++ [merged; left_over])
                 (trace w ++ [CallFromFile (path_join tempdir _CONFIG_NAME) overrides;
                              CallModelLoad (S (length (store w))) merged
                                (path_join tempdir _WEIGHTS_NAME) tempdir cuda_device]).
Proof.
  unfold restore_tail. split.
  - intros Hrun.
    apply bind_ok_inv in Hrun as (c & w1 & Hff & Hrun).
    apply Params_from_file_ok in Hff
      as (ct & fd & od & merged & Hc & Hfd & Hod & Hm & -> & ->).
    apply bind_ok_inv in Hrun as (d & w2 & Hdup & Hrun).
    apply Params_duplicate_ok in Hdup as (j & Hj & -> & ->). cbn in Hj.
    rewrite store_lookup_new in Hj. injection Hj as <-.
    apply bind_ok_inv in Hrun as (m & w3 & Hload & Hrun).
    apply Model_load_call_ok in Hload as (params & left_over & Hp & Hl & ->).
    cbn in Hp, Hl. rewrite length_app, Nat.add_1_r, <- app_assoc in Hp.
    cbn [app] in Hp.
    rewrite (lookup_app_r (store w)), Nat.sub_succ_l, Nat.sub_diag in Hp by lia.
    injection Hp as <-.
    apply bind_ok_inv in Hrun as ([] & w4 & Hrm & Hret).
    apply shutil_rmtree_ok in Hrm as [Hd ->]. injection Hret as <- <-.
    exists ct, fd, od, merged, left_over. split_and!; try done. cbn.
    rewrite length_app, Nat.add_1_r, <- !app_assoc. cbn [app].
    by rewrite store_insert_second.
  - intros (ct & fd & od & merged & left_over & Hc & Hfd & Hod & Hm & Hl & Hd & Hcfg & ->).
    destruct ar as [m c]. cbn in *. subst c.
    erewrite bind_ok; last by (apply Params_from_file_ok; eauto 10).
    erewrite bind_ok; last first.
    { apply Params_duplicate_ok. eexists. split; [apply store_lookup_new | done]. }
    erewrite bind_ok; last first.
    { apply Model_load_call_ok. exists merged, left_over. split_and!; [| exact Hl | done].
      cbn. rewrite length_app, Nat.add_1_r, <- app_assoc. cbn [app].
      by rewrite (lookup_app_r (store w)), Nat.sub_succ_l, Nat.sub_diag by lia. }
    erewrite bind_ok; last by (apply shutil_rmtree_ok; split; [exact Hd | done]).
    unfold ret, set_fs, set_store. cbn.
    rewrite length_app, Nat.add_1_r, <- !app_assoc. cbn [app].
    by rewrite store_insert_second.
Qed.

Lemma tarfile_extractall_ok (p dest : string) (w w1 : World) :
  tarfile_extractall p dest w = (Ok tt, w1) ↔
  ∃ finished ms, fs w !! p = Some (File (TarGz finished ms)) ∧
                 readable finished ms = true ∧
                 w1 = set_fs (extract_members dest ms (fs w)) w.
Proof.
  unfold tarfile_extractall. split.
  - destruct (fs w !! p) as [[[?|fin ms]|]|]; try done.
    destruct (readable fin ms) eqn:Hr; [|done]. intros [= <-]. by exists fin, ms.
  - by intros (fin & ms & -> & -> & ->).
Qed.

(** A failing extraction has written nothing. *)
Lemma tarfile_extractall_raise (p dest : string) (w : World) (e : exn) (w1 : World) :
  tarfile_extractall p dest w = (Raise e, w1) → w1 = w.
Proof.
  unfold tarfile_extractall.
  destruct (fs w !! p) as [[[?|fin ms]|]|]; try by intros [= _ <-].
  destruct (readable fin ms); [done | by intros [= _ <-]].
Qed.

Lemma load_archive_extracted (archive_file : string) (cuda_device : Z)
    (overrides : text) (w : World) (archive_file' : string) (f1 : FS)
    (ms : list member) :
  cached_path archive_file (fs w) = (Ok archive_file', f1) →
  f1 !! mkdtemp_name f1 = None →
  <[mkdtemp_name f1 := Dir]> f1 !! archive_file' = Some (File (TarGz true ms)) →
  let tempdir := mkdtemp_name f1 in
  let w3 := extracted_world archive_file' tempdir ms f1 w in
  load_archive archive_file cuda_device overrides w =
    match (add_replacements tempdir overrides w3).1 with
    | Raise e => (Raise e, w3)
    | Ok overrides' => restore_tail tempdir cuda_device overrides' w3
    end.
Proof.
  intros Hcp Hfresh Har tempdir w3. rewrite load_archive_run, Hcp. cbn zeta.
  rewrite Hfresh. unfold tarfile_extractall. cbn [fs emit set_fs]. by rewrite Har.
Qed.

(** The same for a stream that was left unfinished but holds members. *)
Lemma load_archive_extracted_readable (archive_file : string) (cuda_device : Z)
    (overrides : text) (w : World) (archive_file' : string) (f1 : FS)
    (finished : bool) (ms : list member) :
  cached_path archive_file (fs w) = (Ok archive_file', f1) →
  f1 !! mkdtemp_name f1 = None →
  <[mkdtemp_name f1 := Dir]> f1 !! archive_file' = Some (File (TarGz finished ms)) →
  readable finished ms = true →
  let tempdir := mkdtemp_name f1 in
  let w3 := extracted_world archive_file' tempdir ms f1 w in
  load_archive archive_file cuda_device overrides w =
    match (add_replacements tempdir overrides w3).1 with
    | Raise e => (Raise e, w3)
    | Ok overrides' => restore_tail tempdir cuda_device overrides' w3
    end.
Proof.
  intros Hcp Hfresh Har Hr tempdir w3. rewrite load_archive_run, Hcp. cbn zeta.
  rewrite Hfresh. unfold tarfile_extractall. cbn [fs emit set_fs].
  by rewrite Har, Hr.
Qed.

(** A successful [load_archive], stage by stage. *)
Lemma load_archive_ok (archive_file : string) (cuda_device : Z) (overrides : text)
    (w : World) (ar : Archive) (w' : World) :
  load_archive archive_file cuda_device overrides w = (Ok ar, w') ↔
  ∃ (archive_file' : string) (f1 : FS) (finished : bool) (ms : list member)
    (overrides' : text),
    cached_path archive_file (fs w) = (Ok archive_file', f1) ∧
    f1 !! mkdtemp_name f1 = None ∧
    <[mkdtemp_name f1 := Dir]> f1 !! archive_file'
      = Some (File (TarGz finished ms)) ∧
    readable finished ms = true ∧
    (add_replacements (mkdtemp_name f1) overrides
       (extracted_world archive_file' (mkdtemp_name f1) ms f1 w)).1 = Ok overrides' ∧
    restore_tail (mkdtemp_name f1) cuda_device overrides'
       (extracted_world archive_file' (mkdtemp_name f1) ms f1 w) = (Ok ar, w').
Proof.
  split.
  - rewrite load_archive_run.
    destruct (cached_path archive_file (fs w)) as [[a'|e] f1] eqn:Hcp; [|done].
    cbn zeta. destruct (f1 !! mkdtemp_name f1) eqn:Hfresh; [done|].
    destruct (tarfile_extractall _ _ _) as [[[]|e] w3] eqn:Hex; [|done].
    apply tarfile_extractall_ok in Hex as (fin & ms & Har & Hr & ->).
    cbn [fs emit set_fs] in Har.
    destruct (add_replacements _ _ _).1 as [ov'|] eqn:Hov; [|done].
    intros Htail. by exists a', f1, fin, ms, ov'.
  - intros (a' & f1 & fin & ms & ov' & Hcp & Hfresh & Har & Hr & Hov & Htail).
    by rewrite (load_archive_extracted_readable _ _ _ _ _ _ _ _ Hcp Hfresh Har Hr), Hov.
Qed.

(** The overrides text that the block returns is the one handed to
    [Params.from_file], as the first call after the extraction. *)
Lemma load_archive_feeds (archive_file : string) (cuda_device : Z)
    (overrides : text) (w : World) (archive_file' : string) (f1 : FS)
    (ms : list member) (overrides' : text) :
  cached_path archive_file (fs w) = (Ok archive_file', f1) →
  f1 !! mkdtemp_name f1 = None →
  <[mkdtemp_name f1 := Dir]> f1 !! archive_file' = Some (File (TarGz true ms)) →
  let tempdir := mkdtemp_name f1 in
  (add_replacements tempdir overrides
     (extracted_world archive_file' tempdir ms f1 w)).1 = Ok overrides' →
  ∃ rest,
    trace (load_archive archive_file cuda_device overrides w).2 =
      trace w ++ [Log INFO "extracting archive file %s to temp dir %s"
                      [archive_file'; tempdir];
                  CallFromFile (path_join tempdir _CONFIG_NAME) overrides'] ++ rest.
Proof.
  intros Hcp Hfresh Har tempdir Hov.
  rewrite (load_archive_extracted _ _ _ _ _ _ _ Hcp Hfresh Har). fold tempdir.
  rewrite Hov.
  destruct (restore_tail_trace tempdir cuda_device overrides'
              (extracted_world archive_file' tempdir ms f1 w)) as [rest ->].
  exists rest. cbn. by rewrite <- app_assoc.
Qed.

(** The combined overrides: the substitution layer is the preferred layer,
    the caller's overrides the fallback. *)
Lemma combine_overrides_spec (tempdir : string) (items : list (string * json))
    (overrides : text) (O : pyhocon.ConfigTree) :
  pyhocon.parse_string overrides = Ok (JObj O) →
  Forall (λ kv : string * json, pyhocon.parse_key kv.1 ≠ []) items →
  ∃ R : pyhocon.ConfigTree,
    pyhocon.from_dict (replacements_of tempdir items) = Ok (JObj R) ∧
    combine_overrides tempdir items overrides
      = Ok (Doc (JObj (pyhocon.merge_configs O R))) ∧
    wf_tree R ∧
    (∀ key, key ∈ items.*1 →
       (∀ key', key' ∈ items.*1 → key' ≠ key →
                incomparable (pyhocon.parse_key key) (pyhocon.parse_key key')) →
       pyhocon.get R key = Some (JStr (path_join tempdir ("fta/" +:+ key)))) ∧
    (∀ p, Forall (λ kv : string * json, incomparable p (pyhocon.parse_key kv.1)) items →
          untouched R p).
Proof.
  intros Hov Hkeys.
  assert (Hsub : ∀ kv : string * string,
             kv ∈ replacements_of tempdir items → kv.1 ∈ items.*1).
  { intros kv Hin. apply (replacements_of_keys tempdir).
    apply list_elem_of_fmap. by exists kv. }
  assert (Hitems : ∀ key, key ∈ items.*1 → ∃ kv, kv ∈ items ∧ kv.1 = key).
  { intros key Hin. apply list_elem_of_fmap in Hin as (kv & -> & Hin). eauto. }
  destruct (from_dict_loop_is_Some (replacements_of tempdir items) []) as [R HR].
  { apply Forall_forall. intros kv Hin.
    destruct (Hitems _ (Hsub _ Hin)) as (kv' & Hin' & <-).
    by eapply (proj1 (Forall_forall _ _) Hkeys). }
  exists R. unfold combine_overrides, pyhocon.from_dict. rewrite HR, Hov. cbn.
  assert (Hwf : wf_tree R) by (eapply from_dict_loop_wf; [apply wf_tree_nil | done]).
  split_and!; try done.
  - intros key Hin Hinc. eapply from_dict_loop_get; [apply replacements_of_NoDup| | |exact HR].
    + apply dict_get_elem. by rewrite replacements_of_get, decide_True.
    + intros key' Hin' Hne. apply Hinc; [|done]. by apply (replacements_of_keys tempdir).
  - intros p Hall. eapply from_dict_loop_untouched;
      [apply wf_tree_nil | apply untouched_nil | | exact HR].
    apply Forall_forall. intros kv Hin.
    destruct (Hitems _ (Hsub _ Hin)) as (kv' & Hin' & <-).
    by eapply (proj1 (Forall_forall _ _) Hall).
Qed.










(** ** [load_archive] *)

Lemma remove_tree_under (d p : string) (f : FS) :
  under d p = true → remove_tree d f !! p = None.
Proof.
  intros Hu. unfold remove_tree. apply map_lookup_filter_None. right.
  intros nd _. cbn. by rewrite Hu.
Qed.

Lemma under_path_join_dir (d name : string) :
  d ≠ "" → endswith_sep d = false → startswith name sep = false →
  under d (path_join d name) = true.
Proof.
  intros Hd He Hn. rewrite path_join_relative by done. unfold dir_prefix.
  rewrite He, bool_decide_eq_false_2 by done. cbn [orb].
  unfold under. rewrite prefix_append. apply orb_true_r.
Qed.


(** C8. In every successful [load_archive] the model loader is handed a
    duplicate of the merged configuration: a new object, different from the
    one the returned [Archive] holds, with the same content at the time of
    the call.  Whatever the loader leaves of the duplicate it consumed, the
    configuration of the returned [Archive] is the original object and still
    holds the merged configuration. *)
Theorem load_archive_passes_duplicate
    (archive_file : string) (cuda_device : Z) (overrides : text)
    (w : World) (ar : Archive) (w' : World) :
  load_archive archive_file cuda_device overrides w = (Ok ar, w') →
  ∃ (duplicate : ref) (merged left_over : json) (tempdir : string) (seen : FS),
    last (trace w') = Some (CallModelLoad duplicate merged
                              (path_join tempdir _WEIGHTS_NAME) tempdir cuda_device) ∧
    Model_load merged (path_join tempdir _WEIGHTS_NAME) tempdir cuda_device seen
      = (Ok (model ar), left_over) ∧
    duplicate ≠ config ar ∧
    store w !! config ar = None ∧
    store w !! duplicate = None ∧
    store w' !! config ar = Some merged ∧
    store w' !! duplicate = Some left_over.
Proof.
  intros Hrun.
  apply load_archive_ok in Hrun
    as (a' & f1 & fin & ms & ov' & Hcp & Hfresh & Har & _ & Hov & Htail).
  apply restore_tail_ok in Htail
    as (ct & fd & od & merged & left_over & _ & _ & _ & _ & Hl & _ & Hcfg & ->).
  cbn [store extracted_world] in Hcfg.
  exists (S (length (store w))), merged, left_over, (mkdtemp_name f1),
    (fs (extracted_world a' (mkdtemp_name f1) ms f1 w)).
  rewrite Hcfg. cbn [store trace extracted_world].
  split_and!.
  - by rewrite last_app.
  - exact Hl.
  - lia.
  - apply lookup_ge_None. lia.
  - apply lookup_ge_None. lia.
  - apply store_lookup_new.
  - by rewrite (lookup_app_r (store w)), Nat.sub_succ_l, Nat.sub_diag by lia.
Qed.


(** C10 (amended). The combined overrides text depends on the keys of the
    manifest, in the order the manifest lists them, and on the caller's
    overrides, not on the original paths stored in the manifest: two
    extracted trees whose manifests list the same keys in the same order,
    with whatever values, give the same result of the auxiliary-file block
    (the same text, or the same exception). *)
Theorem combined_overrides_ignore_original_paths
    (tempdir : string) (overrides : text) (w1 w2 : World)
    (manifest1 manifest2 : list (string * json)) :
  fs w1 !! path_join tempdir _FTA_NAME = Some (File (Text (Doc (JObj manifest1)))) →
  fs w2 !! path_join tempdir _FTA_NAME = Some (File (Text (Doc (JObj manifest2)))) →
  manifest1.*1 = manifest2.*1 →
  (add_replacements tempdir overrides w1).1 = (add_replacements tempdir overrides w2).1.
Proof.
  intros H1 H2 Hkeys.
  rewrite (add_replacements_manifest _ _ _ _ H1), (add_replacements_manifest _ _ _ _ H2).
  cbn. unfold combine_overrides.
  by rewrite (replacements_of_keys_only tempdir _ _ Hkeys).
Qed.

(** C1 (amended). When the extracted tree has a manifest, the text handed to
    [Params.from_file] is the merge in which the substitutions are the
    preferred layer and the caller's overrides the fallback: every manifest
    key (whose dotted path clashes with no other manifest key) is set to
    [tempdir/fta/<key>] whatever the caller's overrides say about it, and the
    caller's overrides are read at the paths no manifest key touches. *)
Theorem manifest_substitutions_take_precedence
    (archive_file : string) (cuda_device : Z) (overrides : text) (w : World)
    (archive_file' : string) (f1 : FS) (ms : list member)
    (manifest : list (string * json)) (O : pyhocon.ConfigTree) :
  cached_path archive_file (fs w) = (Ok archive_file', f1) →
  f1 !! mkdtemp_name f1 = None →
  <[mkdtemp_name f1 := Dir]> f1 !! archive_file' = Some (File (TarGz true ms)) →
  let tempdir := mkdtemp_name f1 in
  extract_members tempdir ms (<[tempdir := Dir]> f1) !! path_join tempdir _FTA_NAME
    = Some (File (Text (Doc (JObj manifest)))) →
  pyhocon.parse_string overrides = Ok (JObj O) →
  Forall (λ kv : string * json, pyhocon.parse_key kv.1 ≠ []) manifest →
  ∃ (combined : pyhocon.ConfigTree) (rest : list event),
    trace (load_archive archive_file cuda_device overrides w).2 =
      trace w ++ [Log INFO "extracting archive file %s to temp dir %s"
                      [archive_file'; tempdir];
                  CallFromFile (path_join tempdir _CONFIG_NAME) (Doc (JObj combined))]
              ++ rest ∧
    (∀ key, key ∈ manifest.*1 →
       (∀ key', key' ∈ manifest.*1 → key' ≠ key →
                incomparable (pyhocon.parse_key key) (pyhocon.parse_key key')) →
       pyhocon.get combined key = Some (JStr (path_join tempdir ("fta/" +:+ key)))) ∧
    (∀ p, Forall (λ kv : string * json, incomparable p (pyhocon.parse_key kv.1)) manifest →
          pyhocon.get_path combined p = pyhocon.get_path O p).
Proof.
  intros Hcp Hfresh Har tempdir Hman Hov Hkeys.
  destruct (combine_overrides_spec tempdir manifest overrides O Hov Hkeys)
    as (R & HR & Hcomb & Hwf & Hget & Hunt).
  destruct (load_archive_feeds archive_file cuda_device overrides w archive_file'
              f1 ms (Doc (JObj (pyhocon.merge_configs O R))) Hcp Hfresh Har)
    as [rest Htrace].
  { fold tempdir. by rewrite (add_replacements_manifest _ _ _ manifest), Hcomb. }
  exists (pyhocon.merge_configs O R), rest. split_and!; [done| |].
  - intros key Hin Hinc. unfold pyhocon.get. apply get_path_merge_leaf; [done|].
    by apply Hget.
  - intros p Hall. destruct Hwf as [R Hnd _].
    apply get_path_merge_untouched; [done|]. by apply Hunt.
Qed.

(** ** Round trip *)



End archival_facts.

(** * Concrete runs *)

Lemma archive_model_missing_weights_witness :
  ∃ w', archive_model "/ser" "last.th" None ser_world = (Ok tt, w') ∧
        fs w' = fs ser_world.
Proof.
  destruct (archive_model_missing_weights "/ser" "last.th" None ser_world)
    as (w' & Hrun & Hfs & _); [vm_compute; reflexivity|].
  exists w'. split; [exact Hrun | exact Hfs].
Defined.


(** C5. The run on the directory that has its weights file and no
    [model_params.json]: the check logs that it is unable to archive the
    model and, having no [return] where the check of the weights file before
    it has one, lets the call go on; [model.tar.gz] is created and the call
    ends in [FileNotFoundError] at the first [archive.add], with an
    unfinished archive without entries left behind.  The missing config file
    is fatal for the call. *)
Lemma missing_config_is_fatal :
  let r := archive_model "/ser" "best.th" None no_config_world in
  r.1 = Raise (FileNotFoundError "/ser/model_params.json") ∧
  trace r.2 =
    [Log ERROR "config file %s does not exist, unable to archive model"
         ["/ser/model_params.json"];
     Log INFO "archiving weights and vocabulary to %s" ["/ser/model.tar.gz"]] ∧
  fs no_config_world !! "/ser/model.tar.gz" = None ∧
  fs r.2 !! "/ser/model.tar.gz" = Some (File (TarGz false [])).
Proof. split_and!; vm_compute; reflexivity. Qed.


(** C10 as stated fails: two manifests with the same set of keys and
    different original paths, listing the keys in a different order, give
    different combined overrides texts (the text keeps the order of the
    keys). *)
Lemma reordered_manifests_differ :
  let manifest1 := [("a", JStr "/data/x"); ("b", JStr "/data/y")] in
  let manifest2 := [("b", JStr "/home/p"); ("a", JStr "/home/q")] in
  manifest1.*1 ≡ₚ manifest2.*1 ∧
  (add_replacements "/tmp/t" (Raw "") (listed_manifest_world manifest1)).1
  ≠ (add_replacements "/tmp/t" (Raw "") (listed_manifest_world manifest2)).1.
Proof.
  split; [apply perm_swap|]. vm_compute. discriminate.
Qed.




Lemma load_archive_passes_duplicate_witness :
  ∃ (duplicate : ref) (merged left_over : json),
    duplicate ≠ 0 ∧
    store (load_archive (H := plain) "/ser/model.tar.gz" (-1) (Raw "") archived_world).2
      !! 0 = Some merged ∧
    store (load_archive (H := plain) "/ser/model.tar.gz" (-1) (Raw "") archived_world).2
      !! duplicate = Some left_over.
Proof.
  destruct (load_archive_passes_duplicate (H := plain) "/ser/model.tar.gz" (-1)
              (Raw "") archived_world (mkArchive (H := plain) plain_model 0)
              (load_archive (H := plain) "/ser/model.tar.gz" (-1) (Raw "")
                 archived_world).2)
    as (dup & merged & left_over & d & seen & _ & _ & Hne & _ & _ & Hc & Hd);
    [vm_compute; reflexivity|].
  exists dup, merged, left_over. split_and!; [exact Hne | exact Hc | exact Hd].
Defined.


Lemma combined_overrides_ignore_original_paths_witness :
  (add_replacements "/tmp/t" (Raw "") (manifest_world "/tmp/foo.txt")).1
  = (add_replacements "/tmp/t" (Raw "") (manifest_world "/home/me/bar.txt")).1.
Proof.
  apply (combined_overrides_ignore_original_paths "/tmp/t" (Raw "")
           (manifest_world "/tmp/foo.txt") (manifest_world "/home/me/bar.txt")
           [("extra", JStr "/tmp/foo.txt")] [("extra", JStr "/home/me/bar.txt")]);
    vm_compute; reflexivity.
Defined.

(** C1 as stated fails: the key [extra] is set by the manifest and by the
    caller, and the text handed to [Params.from_file] carries the path of the
    extracted file, not the caller's value. *)

Lemma caller_override_does_not_win :
  let caller := [("extra", JStr "mine")] in
  ∃ combined,
    CallFromFile "/tmp/t/config.json" (Doc (JObj combined))
      ∈ trace (load_archive (H := plain) "/ser/model.tar.gz" (-1) (Doc (JObj caller))
                 archived_world).2 ∧
    pyhocon.get combined "extra" = Some (JStr "/tmp/t/fta/extra") ∧
    ¬ caller_wins ["extra"] caller combined.
Proof.
  exists [("extra", JStr "/tmp/t/fta/extra")]. split_and!.
  - vm_compute. do 2 right. left.
  - vm_compute. reflexivity.
  - intros Hwins. specialize (Hwins "extra" (JStr "mine")).
    assert (Hin : "extra" ∈ ["extra"]) by (left).
    specialize (Hwins Hin eq_refl). vm_compute in Hwins. discriminate Hwins.
Qed.

Lemma manifest_substitutions_take_precedence_witness :
  ∃ (combined : pyhocon.ConfigTree) (rest : list event),
    trace (load_archive (H := plain) "/ser/model.tar.gz" (-1)
             (Doc (JObj [("extra", JStr "mine")])) archived_world).2 =
      trace archived_world
        ++ [Log INFO "extracting archive file %s to temp dir %s"
                ["/ser/model.tar.gz"; "/tmp/t"];
            CallFromFile (path_join "/tmp/t" _CONFIG_NAME) (Doc (JObj combined))]
        ++ rest ∧
    pyhocon.get combined "extra" = Some (JStr (path_join "/tmp/t" ("fta/" +:+ "extra"))).
Proof.
  destruct (manifest_substitutions_take_precedence (H := plain) "/ser/model.tar.gz"
              (-1) (Doc (JObj [("extra", JStr "mine")])) archived_world
              "/ser/model.tar.gz" (fs archived_world)
              (members_at (fs archived_world) "/ser/model.tar.gz")
              [("extra", JStr "/tmp/foo.txt")] [("extra", JStr "mine")])
    as (combined & rest & Htrace & Hget & _);
    [vm_compute; reflexivity.. | |].
  { repeat constructor. vm_compute. discriminate. }
  exists combined, rest. split; [exact Htrace|].
  apply Hget; [left|].
  intros key' Hin Hne. apply list_elem_of_singleton in Hin. contradiction.
Defined.



(** * Further properties *)

(** ** [archive_model] *)

Lemma endswith_sep_append (d : string) : endswith_sep (d +:+ sep) = true.
Proof.
  induction d as [|c d IH]; [done|]. rewrite append_cons.
  destruct d as [|c' d]; [done|]. rewrite append_cons in *. exact IH.
Qed.

Lemma path_join_trailing_sep (d b : string) :
  d ≠ "" → endswith_sep d = false → path_join (d +:+ sep) b = path_join d b.
Proof.
  intros Hd He. unfold path_join. destruct (startswith b sep); [done|].
  rewrite endswith_sep_append, orb_true_r, He, bool_decide_eq_false_2 by done.
  cbn [orb]. apply append_assoc'.
Qed.

(** X1. A serialization directory may be given with or without a trailing
    separator: [archive_model] does the same in both cases. *)
Theorem archive_model_trailing_separator
    (serialization_dir weights : string)
    (files_to_archive : option (list (string * string))) (w : World) :
  serialization_dir ≠ "" → endswith_sep serialization_dir = false →
  archive_model (serialization_dir +:+ sep) weights files_to_archive w
  = archive_model serialization_dir weights files_to_archive w.
Proof.
  intros Hd He. unfold archive_model.
  by rewrite !(path_join_trailing_sep serialization_dir) by done.
Qed.

Lemma archive_model_trailing_separator_witness :
  archive_model ("/ser" +:+ sep) "best.th" None ser_world
  = archive_model "/ser" "best.th" None ser_world.
Proof.
  apply (archive_model_trailing_separator "/ser" "best.th" None ser_world);
    [discriminate | vm_compute; reflexivity].
Defined.

Section frames.
Context {A : Type} (P : string → Prop).




End frames.



Lemma only_at_write_text (p : string) (t : text) :
  only_at (λ q, q = p) (write_text p t).
Proof.
  intros w r w'. unfold write_text.
  destruct (fs w !! p) as [[?|]|]; intros [= <- <-]; (split; [done|]);
    intros q Hq; cbn; by rewrite ?lookup_insert_ne by done.
Qed.







Lemma bind_raise_inv {A B} (m : M A) (k : A → M B) w e w' :
  bind m k w = (Raise e, w') →
  m w = (Raise e, w') ∨ ∃ a w1, m w = (Ok a, w1) ∧ k a w1 = (Raise e, w').
Proof.
  unfold bind. destruct (m w) as [[a|e1] w1]; [by eauto|]. intros [= -> ->]. by left.
Qed.

Lemma keeps_open_ret {A} (p : string) (f : FS) (a : A) : keeps_open p f (ret a).
Proof. intros w r w' Hinv [= <- <-]. done. Qed.

Lemma keeps_open_bind {A B} (p : string) (f : FS) (m : M B) (k : B → M A) :
  keeps_open p f m → (∀ b, keeps_open p f (k b)) → keeps_open p f (bind m k).
Proof.
  intros Hm Hk w r w' Hinv. unfold bind.
  destruct (m w) as [[b|e] w1] eqn:Hrun; pose proof (Hm _ _ _ Hinv Hrun) as Hinv1.
  - intros Hrun'. by eapply Hk.
  - by intros [= <- <-].
Qed.

Lemma keeps_open_add (p : string) (f : FS) (name arcname : string) :
  keeps_open p f (tarfile_add p name arcname).
Proof.
  intros w r w' [ms Hfs] Hrun. destruct r as [[]|e].
  - destruct (tarfile_add_entry _ _ _ _ _ _ _ Hfs Hrun) as (entry & Hfs' & _). eauto.
  - unfold tarfile_add in Hrun. rewrite Hfs in Hrun at 1.
    rewrite lookup_insert_eq in Hrun.
    destruct (decide (name = p)); [done|].
    destruct (fs w !! name); [done|]. injection Hrun as _ <-. eauto.
Qed.

Lemma keeps_open_for_each {B} (p : string) (f : FS) (body : B → M unit) (l : list B) :
  (∀ x, keeps_open p f (body x)) → keeps_open p f (for_each body l).
Proof.
  intros Hbody. induction l as [|x l IH]; [apply keeps_open_ret|].
  cbn [for_each]. apply keeps_open_bind; [apply Hbody | by intros _].
Qed.

(** X3. A call of [archive_model] that ends in an exception never leaves a
    finished archive of its own: [model.tar.gz] is either what it was before
    the call (the failure came before the archive was opened) or a stream
    that was opened and not closed properly. *)
Theorem archive_model_failure_leaves_no_finished_archive
    (serialization_dir weights : string)
    (files_to_archive : option (list (string * string)))
    (w : World) (e : exn) (w' : World) :
  let archive_file := path_join serialization_dir "model.tar.gz" in
  archive_model serialization_dir weights files_to_archive w = (Raise e, w') →
  fs w' !! archive_file = fs w !! archive_file ∨
  ∃ ms, fs w' !! archive_file = Some (File (TarGz false ms)).
Proof.
  intros archive_file. unfold archive_model.
  set (fta_file := path_join serialization_dir _FTA_NAME).
  assert (Haf : archive_file ≠ fta_file) by (by apply path_join_ne).
  fold archive_file. clearbody archive_file fta_file.
  intros Hrun.
  apply bind_raise_inv in Hrun as [Hrun|(b & w0 & Hex & Hrun)]; [done|].
  injection Hex as <- <-. destruct (negb _); [done|].
  apply bind_raise_inv in Hrun as [Hrun|(b' & w0 & Hex & Hrun)]; [done|].
  injection Hex as <- <-.
  apply bind_raise_inv in Hrun as [Hrun|([] & w1 & Hlog & Hrun)].
  { match type of Hrun with context [negb ?x] => by destruct (negb x) end. }
  assert (Hw1 : fs w1 = fs w).
  { match type of Hlog with context [negb ?x] => destruct (negb x) end;
      by injection Hlog as <-. }
  apply bind_raise_inv in Hrun as [Hrun|([] & w2 & Hman & Hrun)].
  { left. destruct (truthy files_to_archive); [|done].
    unfold write_text in Hrun.
    destruct (fs w1 !! fta_file) as [[?|]|]; try done. injection Hrun as _ <-.
    by rewrite Hw1. }
  assert (Hw2 : fs w2 !! archive_file = fs w !! archive_file).
  { rewrite <- Hw1. destruct (truthy files_to_archive); [|by injection Hman as <-].
    destruct (only_at_write_text _ _ _ _ _ Hman) as [_ Hf]. by apply Hf. }
  apply bind_raise_inv in Hrun as [Hrun|([] & w3 & Hinfo & Hrun)]; [done|].
  injection Hinfo as <-. unfold with_tarfile_w in Hrun.
  apply bind_raise_inv in Hrun as [Hrun|([] & w4 & Hopen & Hrun)].
  { left. unfold tarfile_open_w in Hrun. cbn [fs emit] in Hrun.
    destruct (fs w2 !! archive_file) as [[?|]|] eqn:Hl; try done.
    injection Hrun as _ <-. cbn [fs emit]. congruence. }
  assert (Hw4 : ∃ ms, fs w4 = <[archive_file := File (TarGz false ms)]> (fs w2)).
  { exists []. unfold tarfile_open_w in Hopen. cbn [fs emit] in Hopen.
    destruct (fs w2 !! archive_file) as [[?|]|]; try done; by injection Hopen as <-. }
  right.
  assert (Hadd : ∀ name arcname,
             keeps_open archive_file (fs w2) (tarfile_add archive_file name arcname))
    by (intros; apply keeps_open_add).
  match type of Hrun with
  | bind ?m _ _ = _ => assert (Hkeeps : keeps_open archive_file (fs w2) m)
  end.
  { repeat (apply keeps_open_bind; [apply Hadd | intros _]).
    destruct (truthy files_to_archive); [|apply keeps_open_ret].
    apply keeps_open_bind; [apply Hadd | intros _].
    apply keeps_open_for_each. intros kf. apply Hadd. }
  apply bind_raise_inv in Hrun as [Hrun|([] & w5 & Hbody & Hclose)].
  - destruct (Hkeeps _ _ _ Hw4 Hrun) as [ms Hfs].
    exists ms. by rewrite Hfs, lookup_insert_eq.
  - destruct (Hkeeps _ _ _ Hw4 Hbody) as [ms Hfs].
    unfold tarfile_close in Hclose. by rewrite Hfs, lookup_insert_eq in Hclose.
Qed.

Lemma archive_model_failure_leaves_no_finished_archive_witness :
  fs (archive_model "/ser" "best.th" None no_vocabulary_world).2
    !! path_join "/ser" "model.tar.gz"
    = fs no_vocabulary_world !! path_join "/ser" "model.tar.gz" ∨
  ∃ ms, fs (archive_model "/ser" "best.th" None no_vocabulary_world).2
          !! path_join "/ser" "model.tar.gz" = Some (File (TarGz false ms)).
Proof.
  apply (archive_model_failure_leaves_no_finished_archive "/ser" "best.th" None
           no_vocabulary_world (FileNotFoundError "/ser/vocabulary")).
  vm_compute. reflexivity.
Defined.



(** ** Restoring: what a failure leaves and what a success restores *)

Lemma keeps_fs_ret {A} (a : A) : keeps_fs (ret a).
Proof. by intros w r w' [= <- <-]. Qed.

Lemma keeps_fs_bind {A B} (m : M B) (k : B → M A) :
  keeps_fs m → (∀ b, keeps_fs (k b)) → keeps_fs (bind m k).
Proof.
  intros Hm Hk w r w'. unfold bind.
  destruct (m w) as [[b|e] w1] eqn:Hrun; pose proof (Hm _ _ _ Hrun) as Hfs.
  - intros Hrun'. rewrite <- Hfs. by eapply Hk.
  - by intros [= <- <-].
Qed.

Lemma keeps_fs_tell (ev : event) : keeps_fs (tell ev).
Proof. by intros w r w' [= <- <-]. Qed.

Lemma keeps_fs_lift {A} (r : result A) : keeps_fs (lift r).
Proof. by intros w r' w' [= <- <-]. Qed.

Lemma keeps_fs_read_text (p : string) : keeps_fs (read_text p).
Proof.
  intros w r w'. unfold read_text.
  destruct (fs w !! p) as [[[?|??]|]|]; by intros [= <- <-].
Qed.

Lemma extract_members_is_Some (dest : string) (ms : list member) (f : FS)
    (p : string) :
  is_Some (f !! p) → is_Some (extract_members dest ms f !! p).
Proof.
  intros Hp. rewrite extract_members_writes.
  destruct (apply_writes_lookup (writes dest ms) f p) as [[_ ->]|(v & _ & ->)];
    [done | by eexists].
Qed.

Lemma remove_tree_away (d p : string) (f : FS) :
  under d p = false → remove_tree d f !! p = f !! p.
Proof.
  intros Hu. unfold remove_tree. destruct (f !! p) as [nd|] eqn:Hp.
  - by apply map_lookup_filter_Some.
  - apply map_lookup_filter_None. by left.
Qed.

Section restoring.
Context `{Collaborators}.

Lemma keeps_fs_alloc (j : json) : keeps_fs (alloc j).
Proof. by intros w r w' [= <- <-]. Qed.

Lemma keeps_fs_Params_from_file (params_file : string) (overrides : text) :
  keeps_fs (Params_from_file params_file overrides).
Proof.
  unfold Params_from_file.
  apply keeps_fs_bind; [apply keeps_fs_tell | intros _].
  apply keeps_fs_bind; [apply keeps_fs_read_text | intros file_text].
  repeat (apply keeps_fs_bind; [apply keeps_fs_lift | intros ?]).
  apply keeps_fs_alloc.
Qed.

Lemma keeps_fs_Params_duplicate (self : ref) : keeps_fs (Params_duplicate self).
Proof.
  intros w r w'. unfold Params_duplicate.
  destruct (store w !! self); [apply keeps_fs_alloc | by intros [= <- <-]].
Qed.

Lemma keeps_fs_Model_load_call (config : ref) (weights_file serialization_dir : string)
    (cuda_device : Z) :
  keeps_fs (Model_load_call config weights_file serialization_dir cuda_device).
Proof.
  intros w r w'. unfold Model_load_call.
  destruct (store w !! config); [|by intros [= <- <-]].
  destruct (Model_load _ _ _ _ _). by intros [= <- <-].
Qed.

(** A tail that raises has removed nothing. *)
Lemma restore_tail_raise (tempdir : string) (cuda_device : Z) (overrides : text)
    (w : World) (e : exn) (w' : World) :
  restore_tail tempdir cuda_device overrides w = (Raise e, w') → fs w' = fs w.
Proof.
  unfold restore_tail. intros Hrun.
  apply bind_raise_inv in Hrun as [Hrun|(c & w1 & Hc & Hrun)];
    [by eapply keeps_fs_Params_from_file|].
  apply keeps_fs_Params_from_file in Hc. rewrite <- Hc.
  apply bind_raise_inv in Hrun as [Hrun|(d & w2 & Hd & Hrun)];
    [by eapply keeps_fs_Params_duplicate|].
  apply keeps_fs_Params_duplicate in Hd. rewrite <- Hd.
  apply bind_raise_inv in Hrun as [Hrun|(m & w3 & Hm & Hrun)];
    [by eapply keeps_fs_Model_load_call|].
  apply keeps_fs_Model_load_call in Hm. rewrite <- Hm.
  apply bind_raise_inv in Hrun as [Hrun|([] & w4 & _ & Hrun)]; [|done].
  unfold shutil_rmtree in Hrun.
  destruct (fs w3 !! tempdir) as [[?|]|]; try done; by injection Hrun as _ <-.
Qed.

(** X5. Once the temporary directory has been created, a [load_archive] that
    ends in an exception removes nothing: the temporary directory is still
    there, and so is every path that existed when the directory was
    created. *)
Theorem load_archive_failure_removes_nothing
    (archive_file : string) (cuda_device : Z) (overrides : text)
    (w : World) (archive_file' : string) (f1 : FS) (e : exn) (w' : World) :
  let tempdir := mkdtemp_name f1 in
  cached_path archive_file (fs w) = (Ok archive_file', f1) →
  f1 !! tempdir = None →
  load_archive archive_file cuda_device overrides w = (Raise e, w') →
  is_Some (fs w' !! tempdir) ∧
  ∀ p, is_Some (f1 !! p) → is_Some (fs w' !! p).
Proof.
  intros tempdir Hcp Hfresh. rewrite load_archive_run, Hcp. cbn zeta.
  fold tempdir. rewrite Hfresh.
  set (f2 := <[tempdir := Dir]> f1).
  assert (Hf2 : ∀ p, p = tempdir ∨ is_Some (f1 !! p) → is_Some (f2 !! p)).
  { intros p [->|Hp]; unfold f2; [by rewrite lookup_insert_eq|].
    destruct (decide (tempdir = p)) as [->|];
      [by rewrite lookup_insert_eq | by rewrite lookup_insert_ne]. }
  assert (Hgoal : ∀ f3 : FS, (∀ p, is_Some (f2 !! p) → is_Some (f3 !! p)) →
            is_Some (f3 !! tempdir) ∧ ∀ p, is_Some (f1 !! p) → is_Some (f3 !! p))
    by (intros f3 Hf3; split; [|intros p Hp]; apply Hf3, Hf2; auto).
  clearbody f2.
  destruct (tarfile_extractall _ _ _) as [[[]|e1] w3] eqn:Hex.
  - apply tarfile_extractall_ok in Hex as (fin & ms & Har & _ & ->).
    cbn [fs emit set_fs] in *.
    destruct (add_replacements _ _ _).1 as [ov'|e2].
    + intros Htail. apply restore_tail_raise in Htail. rewrite Htail. cbn [fs].
      apply Hgoal. intros p. apply extract_members_is_Some.
    + intros [= _ <-]. cbn [fs].
      apply Hgoal. intros p. apply extract_members_is_Some.
  - intros [= _ <-]. apply tarfile_extractall_raise in Hex as ->. by apply Hgoal.
Qed.

(** X6. A successful [load_archive] leaves no file behind: when the members
    of the archive have relative names that do not climb out of the
    directory they are extracted to, and nothing lay at or below the
    temporary directory before, the file system after the call is exactly
    the one the resolver produced. *)
Theorem load_archive_success_restores_file_system
    (archive_file : string) (cuda_device : Z) (overrides : text)
    (w : World) (archive_file' : string) (f1 : FS) (ar : Archive) (w' : World) :
  let tempdir := mkdtemp_name f1 in
  cached_path archive_file (fs w) = (Ok archive_file', f1) →
  tempdir ≠ "" → endswith_sep tempdir = false →
  (∀ p, under tempdir p = true → f1 !! p = None) →
  relative_members (members_at f1 archive_file') →
  load_archive archive_file cuda_device overrides w = (Ok ar, w') →
  fs w' = f1.
Proof.
  intros tempdir Hcp Hne Hend Hbelow Hrel Hrun.
  apply load_archive_ok in Hrun
    as (a' & f1' & fin & ms & ov' & Hcp' & Hfresh & Har & _ & Hov & Htail).
  rewrite Hcp in Hcp'. injection Hcp' as <- <-. fold tempdir in Hfresh, Har, Htail.
  assert (Hat : archive_file' ≠ tempdir).
  { intros ->. by rewrite lookup_insert_eq in Har. }
  rewrite lookup_insert_ne in Har by done.
  unfold members_at in Hrel. rewrite Har in Hrel.
  apply restore_tail_ok in Htail
    as (ct & fd & od & merged & left_over & _ & _ & _ & _ & _ & _ & _ & ->).
  cbn [fs extracted_world]. apply map_eq. intros p.
  destruct (under tempdir p) eqn:Hu.
  - rewrite remove_tree_under by done. symmetry. by apply Hbelow.
  - rewrite remove_tree_away by done.
    rewrite extract_members_untouched.
    + apply lookup_insert_ne. intros <-. by rewrite under_refl in Hu.
    + intros v' (m & sn & Hm & Hsn & -> & _)%writes_elem.
      rewrite under_path_join_dir in Hu; [done..|].
      unfold relative_members in Hrel. rewrite Forall_forall in Hrel.
      specialize (Hrel m Hm). rewrite Forall_forall in Hrel.
      by destruct (Hrel sn Hsn).
Qed.

(** X7. When the path the resolver returns does not hold a gzip tar stream
    (it is missing, a directory or a text file), [load_archive] raises
    before anything is read: the only record is the log line, neither
    [Params.from_file] nor [Model.load] has been called, and the only change
    to the file system is the new, empty temporary directory. *)
Theorem load_archive_not_an_archive
    (archive_file : string) (cuda_device : Z) (overrides : text)
    (w : World) (archive_file' : string) (f1 : FS) :
  let tempdir := mkdtemp_name f1 in
  cached_path archive_file (fs w) = (Ok archive_file', f1) →
  f1 !! tempdir = None →
  (∀ finished ms, f1 !! archive_file' ≠ Some (File (TarGz finished ms))) →
  ∃ e, load_archive archive_file cuda_device overrides w
       = (Raise e,
          mkWorld (<[tempdir := Dir]> f1) (store w)
                  (trace w ++ [Log INFO "extracting archive file %s to temp dir %s"
                                   [archive_file'; tempdir]])).
Proof.
  intros tempdir Hcp Hfresh Hnot. rewrite load_archive_run, Hcp. cbn zeta.
  fold tempdir. rewrite Hfresh. unfold tarfile_extractall. cbn [fs emit set_fs].
  destruct (decide (archive_file' = tempdir)) as [->|Hat].
  - rewrite lookup_insert_eq. by eexists.
  - rewrite lookup_insert_ne by done.
    destruct (f1 !! archive_file') as [[[?|fin ms]|]|] eqn:Ha; try by eexists.
    by destruct (Hnot fin ms).
Qed.

Lemma Params_from_file_trace (params_file : string) (overrides : text)
    (w : World) (r : result ref) (w1 : World) :
  Params_from_file params_file overrides w = (r, w1) →
  trace w1 = trace w ++ [CallFromFile params_file overrides].
Proof.
  unfold Params_from_file, bind, tell, read_text, lift, alloc. cbn [fs emit].
  destruct (fs w !! params_file) as [[[t|??]|]|]; try by intros [= <- <-].
  destruct (pyhocon.parse_string t); [|by intros [= <- <-]].
  destruct (pyhocon.parse_string overrides); [|by intros [= <- <-]].
  destruct (pyhocon.with_fallback _ _); by intros [= <- <-].
Qed.

Lemma Params_duplicate_trace (self : ref) (w : World) (r : result ref) (w1 : World) :
  Params_duplicate self w = (r, w1) → trace w1 = trace w.
Proof.
  unfold Params_duplicate, alloc. case_match; by intros [= <- <-].
Qed.

Lemma Model_load_call_trace (config : ref) (weights_file serialization_dir : string)
    (cuda_device : Z) (w : World) (r : result Model) (w1 : World) :
  Model_load_call config weights_file serialization_dir cuda_device w = (r, w1) →
  trace w1 = trace w ∨
  ∃ params, trace w1 = trace w ++ [CallModelLoad config params weights_file
                                     serialization_dir cuda_device].
Proof.
  unfold Model_load_call. destruct (store w !! config) as [params|].
  - destruct (Model_load _ _ _ _ _). intros [= <- <-]. right. by exists params.
  - intros [= <- <-]. by left.
Qed.

Lemma shutil_rmtree_trace (d : string) (w : World) (r : result unit) (w1 : World) :
  shutil_rmtree d w = (r, w1) → trace w1 = trace w.
Proof.
  unfold shutil_rmtree. repeat case_match; by intros [= <- <-].
Qed.

(** What the tail records, whatever its outcome. *)
Lemma restore_tail_calls (tempdir : string) (cuda_device : Z) (overrides : text)
    (w : World) (r : result Archive) (w' : World) :
  restore_tail tempdir cuda_device overrides w = (r, w') →
  ∃ (duplicate : ref) (merged : json) (l : list event),
    trace w' = trace w ++ CallFromFile (path_join tempdir _CONFIG_NAME) overrides :: l ∧
    l `prefix_of` [CallModelLoad duplicate merged (path_join tempdir _WEIGHTS_NAME)
                     tempdir cuda_device].
Proof.
  unfold restore_tail, bind.
  destruct (Params_from_file _ _ _) as [[c|e] w1] eqn:Hc;
    apply Params_from_file_trace in Hc.
  2:{ intros [= <- <-]. exists 0, JNull, []. split; [done|]. apply prefix_nil. }
  destruct (Params_duplicate _ _) as [[d|e] w2] eqn:Hd;
    apply Params_duplicate_trace in Hd.
  2:{ intros [= <- <-]. exists 0, JNull, []. split; [congruence|]. apply prefix_nil. }
  destruct (Model_load_call _ _ _ _ _) as [[m|e] w3] eqn:Hm;
    apply Model_load_call_trace in Hm.
  2:{ intros [= <- <-]. destruct Hm as [Hm|[params Hm]].
      - exists 0, JNull, []. split; [congruence|]. apply prefix_nil.
      - exists d, params, [CallModelLoad d params (path_join tempdir _WEIGHTS_NAME)
                             tempdir cuda_device].
        split; [|done]. rewrite Hm, Hd, Hc. by rewrite <- app_assoc. }
  destruct (shutil_rmtree _ _) as [[[]|e] w4] eqn:Hr;
    apply shutil_rmtree_trace in Hr; intros [= <- <-];
    (destruct Hm as [Hm|[params Hm]];
     [ exists 0, JNull, []; split; [congruence|apply prefix_nil]
     | exists d, params, [CallModelLoad d params (path_join tempdir _WEIGHTS_NAME)
                            tempdir cuda_device];
       split; [|done]; rewrite Hr, Hm, Hd, Hc; by rewrite <- app_assoc ]).
Qed.

(** X8. Whatever its outcome, [load_archive] records at most three things,
    in this order: the log line of the extraction, one call of
    [Params.from_file] on [config.json] of the temporary directory, and one
    call of [Model.load] with [weights.th] of the temporary directory, the
    temporary directory itself and the caller's [cuda_device].  So the model
    loader is never called before the configuration was read, and neither
    collaborator is called twice. *)
Theorem load_archive_calls_in_order
    (archive_file : string) (cuda_device : Z) (overrides : text)
    (w : World) (r : result Archive) (w' : World) :
  load_archive archive_file cuda_device overrides w = (r, w') →
  ∃ (archive_file' tempdir : string) (overrides' : text) (duplicate : ref)
    (merged : json) (l : list event),
    trace w' = trace w ++ l ∧
    l `prefix_of`
      [Log INFO "extracting archive file %s to temp dir %s" [archive_file'; tempdir];
       CallFromFile (path_join tempdir _CONFIG_NAME) overrides';
       CallModelLoad duplicate merged (path_join tempdir _WEIGHTS_NAME) tempdir
                     cuda_device].
Proof.
  rewrite load_archive_run.
  destruct (cached_path archive_file (fs w)) as [[a'|e] f1].
  2:{ intros [= <- <-]. exists "", "", (Raw ""), 0, JNull, [].
      split; [by rewrite app_nil_r | apply prefix_nil]. }
  cbn zeta. set (tempdir := mkdtemp_name f1).
  destruct (f1 !! tempdir).
  { intros [= <- <-]. exists "", "", (Raw ""), 0, JNull, [].
    split; [by rewrite app_nil_r | apply prefix_nil]. }
  set (log := Log INFO _ _).
  assert (Hlog : ∀ ov' dup merged rest,
            [log] `prefix_of` log :: CallFromFile ov' dup :: merged :: rest)
    by (intros; by eexists).
  destruct (tarfile_extractall _ _ _) as [[[]|e] w3] eqn:Hex.
  - apply tarfile_extractall_ok in Hex as (fin & ms & _ & _ & ->).
    destruct (add_replacements _ _ _).1 as [ov'|e].
    + intros (dup & merged & l & Htr & Hl)%restore_tail_calls.
      exists a', tempdir, ov', dup, merged,
        (log :: CallFromFile (path_join tempdir _CONFIG_NAME) ov' :: l). split.
      * rewrite Htr. cbn [trace emit set_fs]. by rewrite <- app_assoc.
      * by do 2 apply prefix_cons.
    + intros [= <- <-]. exists a', tempdir, (Raw ""), 0, JNull, [log].
      split; [done | apply Hlog].
  - intros [= <- <-]. exists a', tempdir, (Raw ""), 0, JNull, [log].
    split; [|apply Hlog]. by apply tarfile_extractall_raise in Hex as ->.
Qed.

End restoring.

Lemma load_archive_failure_removes_nothing_witness :
  is_Some (fs (load_archive (H := plain) "/ser/model.tar.gz" 0 (Raw "") corrupt_world).2
             !! "/tmp/t") ∧
  is_Some (fs (load_archive (H := plain) "/ser/model.tar.gz" 0 (Raw "") corrupt_world).2
             !! "/ser/best.th").
Proof.
  destruct (load_archive_failure_removes_nothing (H := plain)
              "/ser/model.tar.gz" 0 (Raw "") corrupt_world "/ser/model.tar.gz"
              (fs corrupt_world) (ReadError "/ser/model.tar.gz")
              (load_archive (H := plain) "/ser/model.tar.gz" 0 (Raw "") corrupt_world).2)
    as [Htemp Hall]; [reflexivity | reflexivity | vm_compute; reflexivity |].
  split; [exact Htemp | apply Hall; vm_compute; by eexists].
Defined.

Lemma load_archive_success_restores_file_system_witness :
  fs (load_archive (H := plain) "/ser/model.tar.gz" 0 (Raw "") archived_world).2
    = fs archived_world.
Proof.
  apply (load_archive_success_restores_file_system (H := plain)
           "/ser/model.tar.gz" 0 (Raw "") archived_world "/ser/model.tar.gz"
           (fs archived_world) (mkArchive (H := plain) plain_model 0)).
  - reflexivity.
  - done.
  - reflexivity.
  - intros p Hu. apply eq_None_not_Some. intros [nd Hp].
    apply elem_of_map_to_list in Hp. revert Hp. vm_compute map_to_list.
    rewrite !elem_of_cons, elem_of_nil.
    intros Hp. repeat destruct Hp as [[= -> _]|Hp]; done.
  - vm_compute. repeat constructor.
  - vm_compute. reflexivity.
Defined.

Lemma load_archive_not_an_archive_witness :
  ∃ e, load_archive (H := plain) "/ser/model.tar.gz" 0 (Raw "") corrupt_world
       = (Raise e,
          mkWorld (<["/tmp/t" := Dir]> (fs corrupt_world)) []
                  [Log INFO "extracting archive file %s to temp dir %s"
                       ["/ser/model.tar.gz"; "/tmp/t"]]).
Proof.
  apply (load_archive_not_an_archive (H := plain) "/ser/model.tar.gz" 0 (Raw "")
           corrupt_world "/ser/model.tar.gz" (fs corrupt_world)).
  - reflexivity.
  - reflexivity.
  - intros finished ms. vm_compute. discriminate.
Defined.

Lemma load_archive_calls_in_order_witness :
  ∃ (archive_file' tempdir : string) (overrides' : text) (duplicate : ref)
    (merged : json) (l : list event),
    trace (load_archive (H := plain) "/ser/model.tar.gz" 0 (Raw "") archived_world).2
      = trace archived_world ++ l ∧
    l `prefix_of`
      [Log INFO "extracting archive file %s to temp dir %s" [archive_file'; tempdir];
       CallFromFile (path_join tempdir _CONFIG_NAME) overrides';
       CallModelLoad duplicate merged (path_join tempdir _WEIGHTS_NAME) tempdir 0].
Proof.
  apply (load_archive_calls_in_order (H := plain) "/ser/model.tar.gz" 0 (Raw "")
           archived_world
           (load_archive (H := plain) "/ser/model.tar.gz" 0 (Raw "") archived_world).1).
  apply surjective_pairing.
Defined.

(** ** Round trip of the archived files *)

Lemma under_split (src k : string) :
  under src k = true →
  k = src +:+ string_drop (String.length src) k ∧
  (string_drop (String.length src) k = "" ∨
   startswith (string_drop (String.length src) k) sep = true).
Proof.
  unfold under. intros [Heq|Hpre]%orb_true_iff.
  - apply bool_decide_eq_true in Heq as ->.
    rewrite string_drop_all, append_nil_r. auto.
  - apply prefix_inv in Hpre as [r ->]. rewrite append_assoc', string_drop_append.
    split; [done|right]. unfold startswith. apply prefix_append.
Qed.




Lemma Forall2_elem_r {A B} (P : A → B → Prop) (l : list A) (k : list B) (y : B) :
  Forall2 P l k → y ∈ k → ∃ x, x ∈ l ∧ P x y.
Proof.
  induction 1 as [|x y' l k HP _ IH]; [by intros ?%elem_of_nil|].
  intros [->|Hy]%elem_of_cons.
  - exists x. split; [by left|done].
  - destruct (IH Hy) as (x' & Hx' & HP'). exists x'. split; [by right|done].
Qed.

Lemma Forall2_elem_l {A B} (P : A → B → Prop) (l : list A) (k : list B) (x : A) :
  Forall2 P l k → x ∈ l → ∃ y, y ∈ k ∧ P x y.
Proof.
  induction 1 as [|x' y l k HP _ IH]; [by intros ?%elem_of_nil|].
  intros [->|Hx]%elem_of_cons.
  - exists y. split; [by left|done].
  - destruct (IH Hx) as (y' & Hy' & HP'). exists y'. split; [by right|done].
Qed.

(** Where a node is extracted to, when every write to that name carries the
    same node. *)
Lemma extract_members_entry (dest : string) (f0 : FS) (ms : list member)
    (P : string) (nd : node) :
  startswith P sep = false →
  (∃ (m : member) (sn : string * node),
     m ∈ ms ∧ sn ∈ m.2 ∧ m.1 +:+ sn.1 = P ∧ sn.2 = nd) →
  (∀ (m : member) (sn : string * node), m ∈ ms → sn ∈ m.2 →
     startswith (m.1 +:+ sn.1) sep = false ∧ (m.1 +:+ sn.1 = P → sn.2 = nd)) →
  extract_members dest ms f0 !! path_join dest P = Some nd.
Proof.
  intros Hrel (m & sn & Hm & Hsn & HP & Hnd) Hall. apply extract_members_written.
  - apply writes_elem. exists m, sn. by rewrite HP, Hnd.
  - intros v' (m' & sn' & Hm' & Hsn' & Hk & ->)%writes_elem.
    destruct (Hall m' sn' Hm' Hsn') as [Hr Heq].
    apply path_join_inj in Hk; [|done..]. by apply Heq.
Qed.

(** What a captured tree holds: the nodes at and below the source, each under
    its suffix. *)
Lemma captured_entry (p : string) (f : FS) (name : string)
    (tree : list (string * node)) (sfx : string) (n : node) :
  captured p f name tree → (sfx, n) ∈ tree →
  under name (name +:+ sfx) = true ∧
  (sfx = "" ∨ startswith sfx sep = true) ∧
  (name +:+ sfx ≠ p → f !! (name +:+ sfx) = Some n).
Proof.
  intros (f' & Hoff & _ & ->) (k & Hk & Hu & ->)%subtree_elem.
  destruct (under_split _ _ Hu) as [Hsplit Hshape]. rewrite <- Hsplit.
  split_and!; [done|done|]. intros Hne. by rewrite <- Hoff.
Qed.

Lemma captured_has (p : string) (f : FS) (name : string)
    (tree : list (string * node)) (k : string) (nd : node) :
  captured p f name tree → under name k = true → k ≠ p → f !! k = Some nd →
  (string_drop (String.length name) k, nd) ∈ tree.
Proof.
  intros (f' & Hoff & _ & ->) Hu Hne Hk. apply subtree_elem.
  exists k. by rewrite Hoff.
Qed.

(** The members of the archive a successful [archive_model] wrote. *)
Lemma archive_members
    (serialization_dir weights : string)
    (files_to_archive : option (list (string * string))) (w w1 : World) :
  let weights_file := path_join serialization_dir weights in
  let config_file := path_join serialization_dir "model_params.json" in
  let vocabulary := path_join serialization_dir "vocabulary" in
  let fta_file := path_join serialization_dir _FTA_NAME in
  let archive_file := path_join serialization_dir "model.tar.gz" in
  let ms := members_at (fs w1) archive_file in
  is_Some (fs w !! weights_file) →
  archive_model serialization_dir weights files_to_archive w = (Ok tt, w1) →
  ∃ f : FS,
    (∀ k, (truthy files_to_archive = true → k ≠ fta_file) → f !! k = fs w !! k) ∧
    (∀ m, m ∈ ms →
       ∃ name, captured archive_file f name m.2 ∧
         ((m.1 = _CONFIG_NAME ∧ name = config_file) ∨
          (m.1 = _WEIGHTS_NAME ∧ name = weights_file) ∨
          (m.1 = "vocabulary" ∧ name = vocabulary) ∨
          (m.1 = _FTA_NAME ∧ name = fta_file) ∨
          (∃ key, (key, name) ∈ items_of files_to_archive ∧ m.1 = "fta/" +:+ key))) ∧
    (weights_file ≠ archive_file →
     ∃ t, (_WEIGHTS_NAME, t) ∈ ms ∧ captured archive_file f weights_file t) ∧
    (∃ t, ("vocabulary", t) ∈ ms ∧ captured archive_file f vocabulary t) ∧
    (∀ key name, (key, name) ∈ items_of files_to_archive → name ≠ archive_file →
       ∃ t, ("fta/" +:+ key, t) ∈ ms ∧ captured archive_file f name t).
Proof.
  intros weights_file config_file vocabulary fta_file archive_file ms Hw Hrun.
  destruct (archive_model_ok_inv _ _ _ _ _ Hw Hrun)
    as (t1 & e2 & t3 & extra & Hfs & Hc1 & Hc2 & Hc3 & Hextra).
  fold weights_file config_file vocabulary fta_file archive_file in Hfs, Hc1, Hc2, Hc3, Hextra.
  set (f := if truthy files_to_archive
            then <[fta_file := File (Text (json_dumps
                     (manifest_json (items_of files_to_archive))))]> (fs w)
            else fs w) in *.
  assert (Hms : ms = (_CONFIG_NAME, t1) :: e2 ++ ("vocabulary", t3) :: extra).
  { unfold ms, members_at. by rewrite Hfs, lookup_insert_eq. }
  clearbody ms. subst ms. exists f. split_and!.
  - intros k Hk. subst f. destruct (truthy files_to_archive); [|done].
    rewrite lookup_insert_ne; [done|]. intros ->. by apply Hk.
  - intros m Hm. rewrite elem_of_cons, elem_of_app, elem_of_cons in Hm.
    destruct Hm as [->|[Hm|[->|Hm]]].
    + exists config_file. auto.
    + exists weights_file. destruct (decide (weights_file = archive_file)).
      * subst e2. by apply elem_of_nil in Hm.
      * destruct Hc2 as (t2 & -> & Hcap). apply list_elem_of_singleton in Hm as ->.
        auto.
    + exists vocabulary. auto 6.
    + destruct (truthy files_to_archive); [|subst extra; by apply elem_of_nil in Hm].
      destruct Hextra as (t4 & fta & -> & Hc4 & Hall).
      apply elem_of_cons in Hm as [->|Hm]; [exists fta_file; auto 7|].
      destruct (Forall2_elem_r _ _ _ _ Hall Hm) as ([key name] & Hkf & Hname & Hcap).
      apply list_elem_of_filter in Hkf as [_ Hkf].
      exists name. split; [done|]. do 4 right. by exists key.
  - intros Hwa. rewrite decide_False in Hc2 by done.
    destruct Hc2 as (t2 & -> & Hcap). exists t2. split; [|done].
    right. apply elem_of_app. left. by left.
  - exists t3. split; [|done]. right. apply elem_of_app. right. by left.
  - intros key name Hkf Hna.
    destruct (truthy files_to_archive) eqn:Ht.
    + destruct Hextra as (t4 & fta & -> & Hc4 & Hall).
      assert (Hkf' : (key, name) ∈ filter (λ kf : string * string, kf.2 ≠ archive_file)
                                     (items_of files_to_archive))
        by (by apply list_elem_of_filter).
      destruct (Forall2_elem_l _ _ _ _ Hall Hkf') as ([T t] & Hm & Hname & Hcap).
      cbn [fst snd] in *. subst T. exists t. split; [|done].
      right. apply elem_of_app. right. by do 2 right.
    + destruct files_to_archive as [[|]|]; try done; by apply elem_of_nil in Hkf.
Qed.

(** Every name stored in the archive is relative. *)
Lemma archive_member_relative (T sfx name n1 n2 n3 n4 : string)
    (items : list (string * string)) :
  (T = _CONFIG_NAME ∧ name = n1) ∨ (T = _WEIGHTS_NAME ∧ name = n2) ∨
  (T = "vocabulary" ∧ name = n3) ∨ (T = _FTA_NAME ∧ name = n4) ∨
  (∃ key, (key, name) ∈ items ∧ T = "fta/" +:+ key) →
  startswith (T +:+ sfx) sep = false.
Proof.
  intros [[-> _]|[[-> _]|[[-> _]|[[-> _]|(key & _ & ->)]]]];
    by apply startswith_append.
Qed.



(** X10. After a successful [archive_model] on a directory with its weights
    file, extracting the archive it wrote puts every node of the vocabulary
    directory, the directory itself included, under [vocabulary] at the same
    relative path, unchanged, provided no key of [files_to_archive] climbs
    out of [fta/] (paths are taken literally). *)
Theorem archive_round_trip_vocabulary
    (serialization_dir weights : string)
    (files_to_archive : option (list (string * string))) (w w1 : World)
    (dest : string) (f0 : FS) (k : string) (nd : node) :
  let weights_file := path_join serialization_dir weights in
  let vocabulary := path_join serialization_dir "vocabulary" in
  let archive_file := path_join serialization_dir "model.tar.gz" in
  is_Some (fs w !! weights_file) →
  fs w !! k = Some nd →
  under vocabulary k = true →
  Forall (λ kf : string * string, climbs kf.1 = false) (items_of files_to_archive) →
  archive_model serialization_dir weights files_to_archive w = (Ok tt, w1) →
  extract_members dest (members_at (fs w1) archive_file) f0
    !! path_join dest ("vocabulary" +:+ string_drop (String.length vocabulary) k)
    = Some nd.
Proof.
  intros weights_file vocabulary archive_file Hw Hk Hu _ Hrun.
  destruct (archive_members serialization_dir weights files_to_archive w w1)
    as (f & Hf & Hall & _ & (t3 & Hin3 & Hcap3) & _); [done..|].
  set (fta_file := path_join serialization_dir _FTA_NAME) in *.
  fold weights_file vocabulary archive_file in Hf, Hall, Hin3, Hcap3.
  assert (Hka : k ≠ archive_file).
  { intros ->. unfold vocabulary, archive_file in Hu.
    by rewrite under_path_join in Hu. }
  assert (Hkf : k ≠ fta_file).
  { intros ->. unfold vocabulary, fta_file in Hu.
    by rewrite under_path_join in Hu. }
  assert (Hfk : f !! k = Some nd) by (by rewrite Hf).
  destruct (under_split _ _ Hu) as [Hsplit _].
  set (sfx0 := string_drop (String.length vocabulary) k) in *.
  apply extract_members_entry; [by apply startswith_append| |].
  - exists ("vocabulary", t3), (sfx0, nd). split_and!; [done| |done|done].
    by apply (captured_has _ _ _ _ _ _ Hcap3).
  - intros [T tree] [sfx n] Hm Hsn. cbn [fst snd] in *.
    destruct (Hall _ Hm) as (name & Hcap & Hcase). cbn [fst snd] in *.
    split; [by eapply archive_member_relative|].
    destruct Hcase as [[-> ->]|[[-> ->]|[[-> ->]|[[-> ->]|(key & _ & ->)]]]];
      try (by intros [=]).
    intros ->%append_cancel_l.
    destruct (captured_entry _ _ _ _ _ _ Hcap Hsn) as (_ & _ & Hlook).
    rewrite <- Hsplit in Hlook. specialize (Hlook Hka). congruence.
Qed.

Lemma archive_round_trip_vocabulary_witness :
  extract_members "/tmp/t" (members_at (fs archived_world) (path_join "/ser" "model.tar.gz")) ∅
    !! path_join "/tmp/t"
         ("vocabulary" +:+ string_drop (String.length (path_join "/ser" "vocabulary"))
                             "/ser/vocabulary/tokens.txt")
    = Some (File (Text (Raw "tokens"))).
Proof.
  apply (archive_round_trip_vocabulary "/ser" "best.th"
           (Some [("extra", "/tmp/foo.txt")]) ser_world archived_world "/tmp/t" ∅
           "/ser/vocabulary/tokens.txt" (File (Text (Raw "tokens"))));
    [vm_compute; by eexists | reflexivity | reflexivity | by repeat constructor
    | vm_compute; reflexivity].
Defined.


